(** * yubikey-serial-demo: the device monitor of [backend/app.py]

    A shallow embedding of the Flask/Socket.IO backend that polls the
    [ykman] command line tool, parses its output, stores detections in a
    relational store and pushes updates to the connected clients.

    Conventions of the embedding.
    - A Python [str] is a [string] whose characters are the code points
      below 256; [isspace] is Python's [str.isspace] on that range.
    - A Python [dict] with string keys is a [gmap string value]; a Python
      [set] of integers is a [gset Z].
    - A Python exception is the text [str(e)] carried by [Raise]; code
      that can raise lives in the monad [M], whose state survives a
      raised exception exactly like the objects mutated before a Python
      [raise] do.
    - [+:+] appends strings, [++] appends lists.
    - The external world ([subprocess.run], the database clock and the
      database's ability to commit) is an explicit [env] argument.
    - [socketio.emit] appends to the list of messages sent and does not
      raise; the iteration order of a Python set is the order of
      [elements], and no statement depends on it.
    - The handlers [handle_connect] and [handle_disconnect] run
      concurrently: each is a sequence of statements, interleaved in any
      order, and [with thread_lock] blocks while another handler holds
      the lock. One turn of the monitor loop is one step; the loop shares
      no variable with the handlers.
    - [print] calls, the delay [socketio.sleep(2)] and the surrogate
      primary keys [id] of the two tables (assigned by the store, read by
      [to_dict] only) are left out. *)

From Stdlib Require Import ZArith String Ascii List Bool Lia DecimalString.
From stdpp Require Import base option list gmap strings.

Local Open Scope string_scope.
Local Open Scope list_scope.
Local Open Scope Z_scope.

(** ** Exceptions *)

Inductive result (A : Type) : Type :=
| Ok (a : A)
| Raise (e : string).
Arguments Ok {A} a.
Arguments Raise {A} e.

(** ** Python string primitives *)

Module Py.

Definition LF : ascii := "010"%char.
Definition COLON : ascii := ":"%char.

(** [str.isspace] for one code point below 256: TAB, LF, VT, FF, CR, the
    four separators FS GS RS US, SPACE, NEL and NBSP. *)
Definition isspace (c : ascii) : bool :=
  let n := N_of_ascii c in
  ((9 <=? n) && (n <=? 13) || (28 <=? n) && (n <=? 32)
   || (n =? 133) || (n =? 160))%N.

Fixpoint lstrip (s : string) : string :=
  match s with
  | EmptyString => EmptyString
  | String c s' => if isspace c then lstrip s' else s
  end.

Fixpoint rstrip (s : string) : string :=
  match s with
  | EmptyString => EmptyString
  | String c s' =>
      match rstrip s' with
      | EmptyString => if isspace c then EmptyString else String c EmptyString
      | r => String c r
      end
  end.

(** [s.strip()] *)
Definition strip (s : string) : string := rstrip (lstrip s).

(** [s.startswith(p)] *)
Fixpoint startswith (p s : string) : bool :=
  match p, s with
  | EmptyString, _ => true
  | String a p', String b s' => if Ascii.eqb a b then startswith p' s' else false
  | String _ _, EmptyString => false
  end.

(** [sub in s] *)
Fixpoint contains (sub s : string) : bool :=
  startswith sub s
  || match s with
     | EmptyString => false
     | String _ s' => contains sub s'
     end.

(** [s.split(sep)] for a one-character separator; never the empty list. *)
Fixpoint split (sep : ascii) (s : string) : list string :=
  match s with
  | EmptyString => [EmptyString]
  | String c s' =>
      if Ascii.eqb c sep then EmptyString :: split sep s'
      else match split sep s' with
           | hd :: tl => String c hd :: tl
           | [] => [String c EmptyString]
           end
  end.

(** [s.split(sep, 1)]: cut at the first separator only. *)
Fixpoint split1 (sep : ascii) (s : string) : list string :=
  match s with
  | EmptyString => [EmptyString]
  | String c s' =>
      if Ascii.eqb c sep then [EmptyString; s']
      else match split1 sep s' with
           | hd :: tl => String c hd :: tl
           | [] => [String c EmptyString]
           end
  end.

(** [l[i]], raising [IndexError] out of range. *)
Definition item {A} (l : list A) (i : nat) : result A :=
  match l !! i with
  | Some x => Ok x
  | None => Raise "list index out of range"
  end.

(** [str(n)] for an integer. *)
Definition str (n : Z) : string := NilZero.string_of_int (Z.to_int n).

Definition isdigit (c : ascii) : bool :=
  let n := N_of_ascii c in ((48 <=? n) && (n <=? 57))%N.

Definition digit_value (c : ascii) : Z := Z.of_N (N_of_ascii c) - 48.

(** The digits of a decimal literal, most significant first. After a
    digit a single underscore is allowed when another digit follows.
    [acc] is the value read so far, [prev] tells whether the previous
    character was a digit. *)
Fixpoint digits (s : string) (acc : Z) (prev : bool) : option Z :=
  match s with
  | EmptyString => if prev then Some acc else None
  | String c s' =>
      if isdigit c then digits s' (10 * acc + digit_value c) true
      else if Ascii.eqb c "_"%char then
             (if prev then digits s' acc false else None)
      else None
  end.

(** [int(s)]: surrounding whitespace, an optional sign, then digits. *)
Definition int (s : string) : result Z :=
  let bad := Raise ("invalid literal for int() with base 10: " +:+ s) in
  match strip s with
  | String "-" r =>
      match digits r 0 false with Some n => Ok (- n) | None => bad end
  | String "+" r =>
      match digits r 0 false with Some n => Ok n | None => bad end
  | r => match digits r 0 false with Some n => Ok n | None => bad end
  end.

End Py.

(** ** Dictionaries of JSON-like values *)

Inductive value : Type :=
| VInt (n : Z)
| VStr (s : string)
| VBool (b : bool).

#[global] Instance value_eq_dec : EqDecision value.
Proof. solve_decision. Defined.

Abbreviation dict := (gmap string value).

(** [d.get(k, default)] *)
Definition get (d : dict) (k : string) (default : value) : value :=
  match d !! k with
  | Some v => v
  | None => default
  end.

(** [d[k]], raising [KeyError] when the key is missing. *)
Definition getitem (d : dict) (k : string) : result value :=
  match d !! k with
  | Some v => Ok v
  | None => Raise ("'" +:+ k +:+ "'")
  end.

(** ** [parse_yubikey_info] *)

Definition bind_result {A B} (r : result A) (k : A -> result B) : result B :=
  match r with
  | Ok a => k a
  | Raise e => Raise e
  end.

(** One turn of the [for line in lines] loop. *)
Definition parse_line (info : dict) (line : string) : result dict :=
  let line := Py.strip line in
  if Py.startswith "Firmware version:" line then
    bind_result (Py.item (Py.split1 Py.COLON line) 1)
      (fun v => Ok (<["version" := VStr (Py.strip v)]> info))
  else if Py.startswith "Form factor:" line then
    bind_result (Py.item (Py.split1 Py.COLON line) 1)
      (fun v => Ok (<["form_factor" := VStr (Py.strip v)]> info))
  else if Py.startswith "Device type:" line then
    bind_result (Py.item (Py.split1 Py.COLON line) 1)
      (fun v => Ok (<["device_type" := VStr (Py.strip v)]> info))
  else Ok info.

Fixpoint parse_lines (lines : list string) (info : dict) : result dict :=
  match lines with
  | [] => Ok info
  | line :: rest => bind_result (parse_line info line) (parse_lines rest)
  end.

Definition initial_info : dict :=
  <["version" := VStr "Unknown"]>
    (<["form_factor" := VStr "Unknown"]>
       (<["device_type" := VStr "YubiKey"]> ∅)).

Definition parse_yubikey_info (info_output : string) : result dict :=
  parse_lines (Py.split Py.LF info_output) initial_info.

(** The recognised labels and the keys they fill. *)
Definition labels : list (string * string) :=
  [ ("Firmware version:", "version");
    ("Form factor:", "form_factor");
    ("Device type:", "device_type") ].

(** Joins lines with LF, to write multi-line sample outputs. *)
Fixpoint text_of_lines (ls : list string) : string :=
  match ls with
  | [] => EmptyString
  | [l] => l
  | l :: rest => l +:+ String Py.LF (text_of_lines rest)
  end.

Definition sample_info : string :=
  text_of_lines [ "Device type: YubiKey 5";
                  "  Firmware version: 5.4.3  ";
                  "Form factor: USB-A Keychain" ].

Definition two_versions : string :=
  text_of_lines ["Firmware version: 1"; "Firmware version: 2"].

(** ** The relational store *)

(** Rows of table [yubikeys]. *)
Module YubiKey.
Record t : Type := Build {
  serial : value;
  version : value;
  form_factor : value;
  device_type : value;
  is_fips : value;
  is_sky : value;
  first_seen : Z;
  last_seen : Z;
  raw_info : string
}.
End YubiKey.

(** Rows of table [yubikey_detections]. *)
Module YubiKeyDetection.
Record t : Type := Build {
  serial : value;
  detected_at : Z;
  info_snapshot : dict
}.
End YubiKeyDetection.

Record database : Type := Database {
  yubikeys_table : list YubiKey.t;
  detections_table : list YubiKeyDetection.t
}.

Definition empty_database : database := Database [] [].

(** What the store answers during one call of [save_yubikey_to_db]: the
    value of [func.now()] and whether the transaction goes through
    ([db_error = Some msg] when the query, the flush or the commit
    raises [msg]). *)
Record db_world : Type := DbWorld {
  db_now : Z;
  db_error : option string
}.

(** [YubiKey.query.filter_by(serial=v).first()] *)
Definition query_first (v : value) (rows : list YubiKey.t) : option YubiKey.t :=
  List.find (fun r => bool_decide (YubiKey.serial r = v)) rows.

(** Writes the attributes of a loaded row back to its place. *)
Fixpoint update_first (v : value) (new : YubiKey.t) (rows : list YubiKey.t)
  : list YubiKey.t :=
  match rows with
  | [] => []
  | r :: rest =>
      if bool_decide (YubiKey.serial r = v) then new :: rest
      else r :: update_first v new rest
  end.

(** The rows of table [yubikeys] that carry serial [v]. *)
Definition rows_of (v : value) (rows : list YubiKey.t) : list YubiKey.t :=
  filter (fun r => YubiKey.serial r = v) rows.

(** The body of the [try] block: the rows as they stand at [commit]. *)
Definition save_transaction (w : db_world) (yubikey_info : dict)
    (raw_info : string) (d : database) : result (YubiKey.t * database) :=
  bind_result (getitem yubikey_info "serial") (fun serial =>
  let existing_yubikey := query_first serial (yubikeys_table d) in
  let '(yubikey_record, rows) :=
    match existing_yubikey with
    | Some existing =>
        let updated :=
          YubiKey.Build
            (YubiKey.serial existing)
            (get yubikey_info "version" (VStr "Unknown"))
            (get yubikey_info "form_factor" (VStr "Unknown"))
            (get yubikey_info "device_type" (VStr "YubiKey"))
            (get yubikey_info "is_fips" (VBool false))
            (get yubikey_info "is_sky" (VBool false))
            (YubiKey.first_seen existing)
            (db_now w)
            raw_info in
        (updated, update_first serial updated (yubikeys_table d))
    | None =>
        let created :=
          YubiKey.Build
            serial
            (get yubikey_info "version" (VStr "Unknown"))
            (get yubikey_info "form_factor" (VStr "Unknown"))
            (get yubikey_info "device_type" (VStr "YubiKey"))
            (get yubikey_info "is_fips" (VBool false))
            (get yubikey_info "is_sky" (VBool false))
            (db_now w)
            (db_now w)
            raw_info in
        (created, yubikeys_table d ++ [created])
    end in
  let detection := YubiKeyDetection.Build serial (db_now w) yubikey_info in
  match db_error w with
  | Some e => Raise e
  | None =>
      Ok (yubikey_record, Database rows (detections_table d ++ [detection]))
  end).

(** [save_yubikey_to_db]: commit, or roll back and raise again. *)
Definition save_yubikey_to_db (w : db_world) (yubikey_info : dict)
    (raw_info : string) (d : database) : result YubiKey.t * database :=
  match save_transaction w yubikey_info raw_info d with
  | Ok (yubikey_record, d') => (Ok yubikey_record, d')
  | Raise e => (Raise e, d)
  end.

(** ** The external command *)

(** What [subprocess.run] does: it returns a completed process, or
    raises [FileNotFoundError], [TimeoutExpired], or something else. *)
Inductive proc_outcome : Type :=
| CompletedProcess (returncode : Z) (stdout stderr : string)
| FileNotFoundError
| TimeoutExpired
| OtherError (msg : string).

(** The world as one request or one poll cycle sees it. *)
Record env : Type := Env {
  subprocess_run : list string -> proc_outcome;
  db_at : dict -> string -> db_world
}.

Definition run_ykman_command (e : env) (args : list string) : result string :=
  match subprocess_run e ("ykman" :: args) with
  | CompletedProcess returncode stdout stderr =>
      if returncode =? 0 then Ok (Py.strip stdout)
      else Raise ("ykman error: " +:+ Py.strip stderr)
  | FileNotFoundError =>
      Raise "ykman command not found. Please install yubikey-manager."
  | TimeoutExpired => Raise "ykman command timed out"
  | OtherError msg => Raise msg
  end.

(** ** Stateful code: the monad [M] *)

(** A message pushed to the clients: [socketio.emit(name, {'yubikeys': l})]. *)
Record event : Type := Event {
  event_name : string;
  event_yubikeys : list dict
}.

(** The objects the monitor mutates: the database, the messages sent so
    far and the list [yubikeys] under construction. *)
Record store : Type := Store {
  db : database;
  emitted : list event;
  yubikeys : list dict
}.

Definition M (A : Type) : Type := store -> result A * store.

Definition ret {A} (a : A) : M A := fun s => (Ok a, s).

Definition bind {A B} (m : M A) (k : A -> M B) : M B :=
  fun s =>
    match m s with
    | (Ok a, s') => k a s'
    | (Raise e, s') => (Raise e, s')
    end.

Definition lift {A} (r : result A) : M A := fun s => (r, s).

(** [try: m  except Exception as e: h e] *)
Definition try_except {A} (m : M A) (h : string -> M A) : M A :=
  fun s =>
    match m s with
    | (Ok a, s') => (Ok a, s')
    | (Raise e, s') => h e s'
    end.

Declare Scope py_scope.
Delimit Scope py_scope with py.
Notation "x <- m ;; k" := (bind m (fun x => k))
  (at level 100, m at next level, right associativity) : py_scope.
Notation "m ;;; k" := (bind m (fun _ => k))
  (at level 100, right associativity) : py_scope.

Fixpoint for_each {A} (l : list A) (body : A -> M unit) : M unit :=
  match l with
  | [] => ret tt
  | x :: rest => bind (body x) (fun _ => for_each rest body)
  end.

(** [yubikeys = []] *)
Definition yubikeys_reset : M unit :=
  fun s => (Ok tt, Store (db s) (emitted s) []).

(** [yubikeys.append(info)] *)
Definition yubikeys_append (info : dict) : M unit :=
  fun s => (Ok tt, Store (db s) (emitted s) (yubikeys s ++ [info])).

(** [socketio.emit(name, {'yubikeys': yubikeys})] *)
Definition emit (name : string) : M unit :=
  fun s => (Ok tt, Store (db s) (emitted s ++ [Event name (yubikeys s)]) (yubikeys s)).

(** [save_yubikey_to_db] on the database of the store. *)
Definition save (w : db_world) (yubikey_info : dict) (raw_info : string)
  : M YubiKey.t :=
  fun s =>
    let '(r, d') := save_yubikey_to_db w yubikey_info raw_info (db s) in
    (r, Store d' (emitted s) (yubikeys s)).

(** ** [yubikey_monitor_task] *)

(** [conv(s) for s in lines if s.strip()] *)
Fixpoint serials_of (conv : string -> result Z) (lines : list string)
  : result (list Z) :=
  match lines with
  | [] => Ok []
  | s :: rest =>
      match Py.strip s with
      | EmptyString => serials_of conv rest
      | _ => bind_result (conv s) (fun n =>
             bind_result (serials_of conv rest) (fun ns => Ok (n :: ns)))
      end
  end.

(** The record sent for a device whose details could not be read. *)
Definition fallback_info (serial : Z) : dict :=
  <["serial" := VInt serial]>
    (<["version" := VStr "Unknown"]>
       (<["form_factor" := VStr "Unknown"]>
          (<["device_type" := VStr "YubiKey"]>
             (<["is_fips" := VBool false]>
                (<["is_sky" := VBool false]> ∅))))).

(** The attributes of a device read from its [info] text. *)
Definition tag_info (info : dict) (serial : Z) (info_output : string) : dict :=
  <["is_sky" := VBool (Py.contains "SKY" info_output)]>
    (<["is_fips" := VBool (Py.contains "FIPS" info_output)]>
       (<["serial" := VInt serial]> info)).

Local Open Scope py_scope.

(** Lines 441-445: the serials currently plugged in. *)
Definition enumerate (e : env) : result (gset Z) :=
  bind_result (run_ykman_command e ["list"; "--serials"]) (fun output =>
  match output with
  | EmptyString => Ok ∅
  | _ => bind_result (serials_of Py.int (Py.split Py.LF output))
           (fun ns => Ok (list_to_set ns))
  end).

(** Lines 453-463: one turn of [for serial in current_serials]. *)
Definition probe (e : env) (serial : Z) : M unit :=
  try_except
    (info_output <- lift (run_ykman_command e ["--device"; Py.str serial; "info"]) ;;
     info <- lift (parse_yubikey_info info_output) ;;
     let info := tag_info info serial info_output in
     yubikeys_append info ;;;
     save (db_at e info info_output) info info_output ;;;
     ret tt)
    (fun _ => yubikeys_append (fallback_info serial)).

(** Lines 439-467: the [try] block of the loop; it returns the value of
    [previous_serials] at its end. *)
Definition monitor_body (e : env) (previous_serials : gset Z) : M (gset Z) :=
  current_serials <- lift (enumerate e) ;;
  if decide (current_serials ≠ previous_serials) then
    yubikeys_reset ;;;
    for_each (elements current_serials) (probe e) ;;;
    emit "yubikeys_update" ;;;
    ret current_serials
  else ret previous_serials.

(** One turn of [while True]: the [try] block and its [except]. *)
Definition monitor_iteration (e : env) (previous_serials : gset Z) (s : store)
  : gset Z * store :=
  match monitor_body e previous_serials s with
  | (Ok current, s') => (current, s')
  | (Raise _, s') => (previous_serials, s')
  end.

(** The loop run against the worlds of its successive turns. *)
Fixpoint monitor_run (es : list env) (previous_serials : gset Z) (s : store)
  : gset Z * store :=
  match es with
  | [] => (previous_serials, s)
  | e :: rest =>
      let '(current, s') := monitor_iteration e previous_serials s in
      monitor_run rest current s'
  end.

Definition initial_store : store := Store empty_database [] [].

(** ** [list_yubikeys] (GET /api/yubikeys) *)

(** The JSON answers of the handler: the list with its count and status
    200, or an error text with status 500. *)
Inductive response : Type :=
| Success (yubikeys : list dict) (count : nat)
| Failure (error : string).

Definition basic_info (serial : Z) : dict := fallback_info serial.

(** Lines 176-210: one turn of [for serial in serials]. *)
Definition list_one (e : env) (auto_save : bool) (serial : Z) : M unit :=
  try_except
    (info_output <- lift (run_ykman_command e ["--device"; Py.str serial; "info"]) ;;
     info <- lift (parse_yubikey_info info_output) ;;
     let info := tag_info info serial info_output in
     yubikeys_append info ;;;
     if auto_save
     then (save (db_at e info info_output) info info_output ;;; ret tt)
     else ret tt)
    (fun err =>
       yubikeys_append (basic_info serial) ;;;
       if auto_save
       then try_except
              (save (db_at e (basic_info serial) err) (basic_info serial) err ;;; ret tt)
              (fun _ => ret tt)
       else ret tt).

Definition list_yubikeys (e : env) (auto_save : bool) : M response :=
  try_except
    (output <- lift (run_ykman_command e ["list"; "--serials"]) ;;
     match output with
     | EmptyString => ret (Success [] 0)
     | _ =>
         serials <- lift (serials_of (fun line => Py.int (Py.strip line))
                            (Py.split Py.LF output)) ;;
         yubikeys_reset ;;;
         for_each serials (list_one e auto_save) ;;;
         (fun s => (Ok (Success (yubikeys s) (length (yubikeys s))), s))
     end)
    (fun err => ret (Failure err)).

Local Close Scope py_scope.

(** ** The Socket.IO handlers and the background task *)

(** Where an invocation of [handle_connect] or [handle_disconnect]
    stands; one statement is one step. [ConnectAssign h] is the point
    between the return of [start_background_task], with handle [h], and
    the assignment to the global [thread]. *)
Inductive pc : Type :=
| ConnectAcquire
| ConnectIncr
| ConnectTest
| ConnectStart
| ConnectAssign (h : nat)
| ConnectPrint
| ConnectRelease
| ConnectReturned
| DisconnectAcquire
| DisconnectDecr
| DisconnectPrint
| DisconnectRelease
| DisconnectReturned.

#[global] Instance pc_eq_dec : EqDecision pc.
Proof. solve_decision. Defined.

(** The process: the three globals of the module, the background tasks
    started so far (a running [yubikey_monitor_task] is its local
    [previous_serials]), the objects they share, and the handler
    invocations in flight. *)
Record system : Type := System {
  thread : option nat;
  thread_lock : option nat;
  connected_clients : Z;
  tasks : list (gset Z);
  shared : store;
  handlers : list pc
}.

Definition initial_system : system :=
  System None None 0 [] initial_store [].

Inductive event_kind : Type := Connect | Disconnect.

Inductive action : Type :=
| Arrive (k : event_kind)
| Handler (i : nat)
| Task (j : nat) (e : env).

Definition set_pc (i : nat) (p : pc) (σ : system) : system :=
  System (thread σ) (thread_lock σ) (connected_clients σ) (tasks σ)
         (shared σ) (<[i := p]> (handlers σ)).

(** The next statement of handler invocation [i]; [None] when it waits
    for the lock or has returned. *)
Definition handler_step (i : nat) (σ : system) : option system :=
  match handlers σ !! i with
  | None => None
  | Some ConnectAcquire =>
      match thread_lock σ with
      | Some _ => None
      | None =>
          Some (System (thread σ) (Some i) (connected_clients σ) (tasks σ)
                       (shared σ) (<[i := ConnectIncr]> (handlers σ)))
      end
  | Some ConnectIncr =>
      Some (System (thread σ) (thread_lock σ) (connected_clients σ + 1)
                   (tasks σ) (shared σ) (<[i := ConnectTest]> (handlers σ)))
  | Some ConnectTest =>
      match thread σ with
      | None => Some (set_pc i ConnectStart σ)
      | Some _ => Some (set_pc i ConnectRelease σ)
      end
  | Some ConnectStart =>
      Some (System (thread σ) (thread_lock σ) (connected_clients σ)
                   (tasks σ ++ [∅]) (shared σ)
                   (<[i := ConnectAssign (length (tasks σ))]> (handlers σ)))
  | Some (ConnectAssign h) =>
      Some (System (Some h) (thread_lock σ) (connected_clients σ) (tasks σ)
                   (shared σ) (<[i := ConnectPrint]> (handlers σ)))
  | Some ConnectPrint => Some (set_pc i ConnectRelease σ)
  | Some ConnectRelease =>
      Some (System (thread σ) None (connected_clients σ) (tasks σ)
                   (shared σ) (<[i := ConnectReturned]> (handlers σ)))
  | Some ConnectReturned => None
  | Some DisconnectAcquire =>
      match thread_lock σ with
      | Some _ => None
      | None =>
          Some (System (thread σ) (Some i) (connected_clients σ) (tasks σ)
                       (shared σ) (<[i := DisconnectDecr]> (handlers σ)))
      end
  | Some DisconnectDecr =>
      Some (System (thread σ) (thread_lock σ) (connected_clients σ - 1)
                   (tasks σ) (shared σ) (<[i := DisconnectPrint]> (handlers σ)))
  | Some DisconnectPrint => Some (set_pc i DisconnectRelease σ)
  | Some DisconnectRelease =>
      Some (System (thread σ) None (connected_clients σ) (tasks σ)
                   (shared σ) (<[i := DisconnectReturned]> (handlers σ)))
  | Some DisconnectReturned => None
  end.

(** One turn of the [while True] loop of background task [j]. *)
Definition task_step (j : nat) (e : env) (σ : system) : option system :=
  match tasks σ !! j with
  | None => None
  | Some previous_serials =>
      let '(current, s') := monitor_iteration e previous_serials (shared σ) in
      Some (System (thread σ) (thread_lock σ) (connected_clients σ)
                   (<[j := current]> (tasks σ)) s' (handlers σ))
  end.

Definition step (a : action) (σ : system) : option system :=
  match a with
  | Arrive Connect =>
      Some (System (thread σ) (thread_lock σ) (connected_clients σ) (tasks σ)
                   (shared σ) (handlers σ ++ [ConnectAcquire]))
  | Arrive Disconnect =>
      Some (System (thread σ) (thread_lock σ) (connected_clients σ) (tasks σ)
                   (shared σ) (handlers σ ++ [DisconnectAcquire]))
  | Handler i => handler_step i σ
  | Task j e => task_step j e σ
  end.

(** A schedule: any interleaving of arrivals, handler statements and
    loop turns. [None] when it asks for a step that cannot be taken. *)
Fixpoint run (schedule : list action) (σ : system) : option system :=
  match schedule with
  | [] => Some σ
  | a :: rest =>
      match step a σ with
      | Some σ' => run rest σ'
      | None => None
      end
  end.

(** ** Observations and sample worlds used by the statements *)

(** Lines 454-458 on their own: the attributes read for one device,
    together with the raw text they come from. *)
Definition read_info (e : env) (serial : Z) : result (dict * string) :=
  bind_result (run_ykman_command e ["--device"; Py.str serial; "info"])
    (fun info_output =>
  bind_result (parse_yubikey_info info_output) (fun info =>
  Ok (tag_info info serial info_output, info_output))).

(** What one turn of the inner loop appends to [yubikeys]. *)
Definition probe_entries (e : env) (serial : Z) : list dict :=
  match read_info e serial with
  | Raise _ => [fallback_info serial]
  | Ok (info, info_output) =>
      match db_error (db_at e info info_output) with
      | None => [info]
      | Some _ => [info; fallback_info serial]
      end
  end.

(** The database after one turn of the inner loop. *)
Definition probe_db (e : env) (serial : Z) (d : database) : database :=
  match read_info e serial with
  | Raise _ => d
  | Ok (info, info_output) =>
      snd (save_yubikey_to_db (db_at e info info_output) info info_output d)
  end.

(** The entry is about device [serial]. *)
Definition has_serial (serial : Z) (entry : dict) : Prop :=
  entry !! "serial" = Some (VInt serial).

#[global] Instance has_serial_dec serial entry : Decision (has_serial serial entry).
Proof. unfold has_serial. apply _. Defined.


(** The set reported by the last poll of [es] whose enumeration went
    through, [init] when there is none. *)
Fixpoint last_success (es : list env) (init : gset Z) : gset Z :=
  match es with
  | [] => init
  | e :: rest =>
      match enumerate e with
      | Ok current => last_success rest current
      | Raise _ => last_success rest init
      end
  end.

(** A world given by the answer to [ykman list --serials], the answers
    to [ykman --device n info] and the behaviour of the store. *)
Definition world (listing : proc_outcome) (info : string -> proc_outcome)
    (store_at : dict -> string -> db_world) : env :=
  Env (fun args =>
         match args with
         | [_; "list"; "--serials"] => listing
         | [_; "--device"; n; "info"] => info n
         | _ => OtherError "usage"
         end)
      store_at.

Definition lines_out (ls : list string) : proc_outcome :=
  CompletedProcess 0 (text_of_lines ls) "".

Definition store_up : dict -> string -> db_world := fun _ _ => DbWorld 100 None.
Definition store_down : dict -> string -> db_world :=
  fun _ _ => DbWorld 100 (Some "connection refused").

(** Device 7 is plugged in and answers. *)
Definition world_7 : env :=
  world (lines_out ["7"]) (fun _ => CompletedProcess 0 sample_info "") store_up.

(** Device 7 is plugged in but [ykman --device 7 info] exits with 1. *)
Definition world_7_mute : env :=
  world (lines_out ["7"]) (fun _ => CompletedProcess 1 "" "Failed connecting")
        store_up.

(** Device 7 answers but the store rejects every write. *)
Definition world_7_store_down : env :=
  world (lines_out ["7"]) (fun _ => CompletedProcess 0 sample_info "") store_down.

(** Devices 7 and 8 are plugged in and answer. *)
Definition world_7_8 : env :=
  world (lines_out ["7"; "8"]) (fun _ => CompletedProcess 0 sample_info "")
        store_up.

(** Nothing is plugged in. *)
Definition world_none : env :=
  world (lines_out []) (fun _ => CompletedProcess 1 "" "no device") store_up.

(** [ykman] is not installed. *)
Definition world_no_ykman : env :=
  world FileNotFoundError (fun _ => FileNotFoundError) store_up.

(** Two readings of device 12345678, before and after a firmware change. *)
Definition reading (firmware : string) : dict :=
  <["version" := VStr firmware]> (fallback_info 12345678).

(** ** The invariant of the handlers *)

(** The statements executed while holding [thread_lock]. *)
Definition critical (p : pc) : bool :=
  match p with
  | ConnectAcquire | ConnectReturned | DisconnectAcquire | DisconnectReturned =>
      false
  | _ => true
  end.

(** The points of [handle_connect] after the [if thread is None] block. *)
Definition after_start (p : pc) : bool :=
  match p with
  | ConnectPrint | ConnectRelease | ConnectReturned => true
  | _ => false
  end.

(** The point between [start_background_task] and the assignment. *)
Definition is_assign (p : pc) : bool :=
  match p with
  | ConnectAssign _ => true
  | _ => false
  end.

Record invariant (σ : system) : Prop := Invariant {
  inv_lock : forall i p,
    handlers σ !! i = Some p -> critical p = true -> thread_lock σ = Some i;
  inv_thread : forall h, thread σ = Some h -> length (tasks σ) = 1%nat;
  inv_none :
    thread σ = None ->
    (forall i h, handlers σ !! i <> Some (ConnectAssign h)) ->
    tasks σ = [];
  inv_start : forall i, handlers σ !! i = Some ConnectStart -> thread σ = None;
  inv_assign : forall i h,
    handlers σ !! i = Some (ConnectAssign h) ->
    thread σ = None /\ length (tasks σ) = 1%nat;
  inv_after : forall i p,
    handlers σ !! i = Some p -> after_start p = true -> thread σ <> None
}.

(** The handler that holds the lock is inside its [with] block. *)
Definition holder_ok (σ : system) : Prop :=
  forall i, thread_lock σ = Some i ->
    exists p, handlers σ !! i = Some p /\ critical p = true.

(** The event a handler invocation serves. *)
Definition kind (p : pc) : event_kind :=
  match p with
  | ConnectAcquire | ConnectIncr | ConnectTest | ConnectStart
  | ConnectAssign _ | ConnectPrint | ConnectRelease | ConnectReturned => Connect
  | _ => Disconnect
  end.

(** An upper bound on the statements a handler still has to execute. *)
Definition rank (p : pc) : nat :=
  match p with
  | ConnectAcquire => 7
  | ConnectIncr => 6
  | ConnectTest => 5
  | ConnectStart => 4
  | ConnectAssign _ => 3
  | ConnectPrint => 2
  | ConnectRelease => 1
  | ConnectReturned => 0
  | DisconnectAcquire => 4
  | DisconnectDecr => 3
  | DisconnectPrint => 2
  | DisconnectRelease => 1
  | DisconnectReturned => 0
  end.

Definition remaining (σ : system) : nat := sum_list (rank <$> handlers σ).

(** Three clients connect at once: the second one gets the lock first. *)
Definition three_connects : list action :=
  [ Arrive Connect; Arrive Connect; Handler 1; Arrive Connect;
    Handler 1; Handler 1; Handler 1; Handler 1; Handler 1; Handler 1;
    Handler 2; Handler 2; Handler 2; Handler 2;
    Handler 0; Handler 0; Handler 0; Handler 0 ].

(** One client connects. *)
Definition one_connect : list action :=
  [ Arrive Connect;
    Handler 0; Handler 0; Handler 0; Handler 0; Handler 0; Handler 0; Handler 0 ].

(** The loop turns, the client leaves, the loop turns again. *)
Definition then_leave : list action :=
  [ Task 0 world_7;
    Arrive Disconnect;
    Handler 1; Handler 1; Handler 1; Handler 1;
    Task 0 world_none ].

(** ** The other request handlers *)

Local Open Scope py_scope.

(** The answers of [get_yubikey_info]: status 200 with the attributes,
    or status 404 with an error text. *)
Inductive info_response : Type :=
| InfoFound (info : dict)
| InfoNotFound (error : string).

(** GET /api/yubikey/<serial>/info *)
Definition get_yubikey_info (e : env) (auto_save : bool) (serial : Z)
  : M info_response :=
  try_except
    (info_output <- lift (run_ykman_command e ["--device"; Py.str serial; "info"]) ;;
     info <- lift (parse_yubikey_info info_output) ;;
     let info := tag_info info serial info_output in
     (if auto_save
      then (save (db_at e info info_output) info info_output ;;; ret tt)
      else ret tt) ;;;
     ret (InfoFound info))
    (fun err => ret (InfoNotFound err)).

(** The answers of [save_yubikey]: status 200 with a message and the row
    whose [to_dict] is returned, or status 500 with an error text. *)
Inductive save_response : Type :=
| Saved (message : string) (record : YubiKey.t)
| NotSaved (error : string).

(** POST /api/yubikey/<serial>/save *)
Definition save_yubikey (e : env) (serial : Z) : M save_response :=
  try_except
    (info_output <- lift (run_ykman_command e ["--device"; Py.str serial; "info"]) ;;
     info <- lift (parse_yubikey_info info_output) ;;
     let info := tag_info info serial info_output in
     yubikey_record <- save (db_at e info info_output) info info_output ;;
     ret (Saved ("YubiKey " +:+ Py.str serial +:+ " saved to database")
                yubikey_record))
    (fun err => ret (NotSaved err)).

Local Close Scope py_scope.

(** The figures of GET /api/database/stats. *)
Record stats : Type := Stats {
  total_yubikeys : nat;
  total_detections : nat;
  recent_detections_24h : nat
}.

(** [timedelta(hours=24)], timestamps being counted in seconds. *)
Definition hours_24 : Z := 24 * 3600.

(** The three counts of [get_database_stats], [now] being
    [datetime.now()]. *)
Definition database_stats (now : Z) (d : database) : stats :=
  Stats (length (yubikeys_table d))
        (length (detections_table d))
        (length (filter (fun r => now - hours_24 <= YubiKeyDetection.detected_at r)
                        (detections_table d))).


(** ** Sequences of calls, and what the statements below observe *)

(** A sequence of calls of [save_yubikey_to_db], whatever each returns. *)
Fixpoint save_all (calls : list (db_world * dict * string)) (d : database)
  : database :=
  match calls with
  | [] => d
  | (w, yubikey_info, raw_info) :: rest =>
      save_all rest (snd (save_yubikey_to_db w yubikey_info raw_info d))
  end.

(** The serial column of table [yubikeys]. *)
Definition serial_column (d : database) : list value :=
  YubiKey.serial <$> yubikeys_table d.

(** The line is one the parser recognises. *)
Definition labelled (line : string) : bool :=
  Py.startswith "Firmware version:" (Py.strip line)
  || Py.startswith "Form factor:" (Py.strip line)
  || Py.startswith "Device type:" (Py.strip line).

(** The shape every result of the parser has. *)
Definition well_formed_info (info : dict) : Prop :=
  dom info = ({["version"; "form_factor"; "device_type"]} : gset string)
  /\ forall key v, info !! key = Some v ->
       exists s, v = VStr s /\ Py.strip s = s.

(** The effect on [connected_clients] of the statements a handler has
    executed so far. *)
Definition contribution (p : pc) : Z :=
  match p with
  | ConnectTest | ConnectStart | ConnectAssign _ | ConnectPrint
  | ConnectRelease | ConnectReturned => 1
  | DisconnectPrint | DisconnectRelease | DisconnectReturned => -1
  | _ => 0
  end.

Definition returned (p : pc) : bool :=
  match p with
  | ConnectReturned | DisconnectReturned => true
  | _ => false
  end.

#[global] Instance event_kind_eq_dec : EqDecision event_kind.
Proof. solve_decision. Defined.

(** The sum of the contributions of the handler invocations. *)
Definition total_contribution (l : list pc) : Z :=
  foldr (fun p acc => contribution p + acc) 0 l.

(** The number of invocations serving events of kind [k]. *)
Definition count_kind (k : event_kind) (l : list pc) : Z :=
  Z.of_nat (length (filter (fun p => kind p = k) l)).

(** The system can be reached from the start of the process. *)
Definition reachable (σ : system) : Prop :=
  exists schedule, run schedule initial_system = Some σ.

(** Two clients connect and three disconnect events are served. *)
Definition two_in_three_out : list action :=
  [ Arrive Disconnect; Arrive Connect; Arrive Disconnect; Arrive Connect;
    Arrive Disconnect;
    Handler 0; Handler 0; Handler 0; Handler 0;
    Handler 3; Handler 3; Handler 3; Handler 3; Handler 3; Handler 3; Handler 3;
    Handler 2; Handler 2; Handler 2; Handler 2;
    Handler 1; Handler 1; Handler 1; Handler 1;
    Handler 4; Handler 4; Handler 4; Handler 4 ].


(** * Properties *)

(** ** Sample runs of the primitives *)

Example parse_sample :
  parse_yubikey_info sample_info
  = Ok (<["version" := VStr "5.4.3"]>
          (<["form_factor" := VStr "USB-A Keychain"]>
             (<["device_type" := VStr "YubiKey 5"]> ∅))).
Proof. vm_compute. reflexivity. Qed.

Example str_samples : Py.str 12345678 = "12345678" /\ Py.str 0 = "0" /\ Py.str (-7) = "-7".
Proof. vm_compute. auto. Qed.

Example int_samples :
  Py.int " 12_345 " = Ok 12345 /\ Py.int "-007" = Ok (-7)
  /\ Py.int "1__2" = Raise "invalid literal for int() with base 10: 1__2"
  /\ Py.int "" = Raise "invalid literal for int() with base 10: ".
Proof. vm_compute. auto. Qed.

(** ** Strings *)

Section StringFacts.

Lemma append_cons (c : ascii) (s r : string) :
  String c s +:+ r = String c (s +:+ r).
Proof. reflexivity. Qed.

Lemma append_nil (r : string) : EmptyString +:+ r = r.
Proof. reflexivity. Qed.

Lemma startswith_spec (p s : string) :
  Py.startswith p s = true <-> exists rest, s = p +:+ rest.
Proof.
  revert s. induction p as [|a p IH]; intros s; simpl.
  - split; [intros _; exists s; reflexivity | reflexivity].
  - destruct s as [|b s]; simpl.
    + split; [discriminate | intros [rest H]; discriminate].
    + destruct (Ascii.eqb_spec a b) as [->|Hab].
      * rewrite IH. split; intros [rest H]; exists rest;
          rewrite append_cons in *; congruence.
      * split; [discriminate |].
        intros [rest H]. rewrite append_cons in H. congruence.
Qed.




Lemma split_nonempty (sep : ascii) (s : string) : Py.split sep s <> [].
Proof.
  induction s as [|c s IH]; simpl; [discriminate|].
  destruct (Ascii.eqb c sep); [discriminate|].
  destruct (Py.split sep s); discriminate.
Qed.

End StringFacts.

(** ** The attribute parser *)

Section Parser.

Lemma parse_line_labelled (label key rest line : string) (info : dict) :
  (label, key) ∈ labels ->
  Py.strip line = label +:+ rest ->
  parse_line info line = Ok (<[key := VStr (Py.strip rest)]> info).
Proof.
  intros Hin Hline. unfold parse_line. rewrite Hline.
  unfold labels in Hin. rewrite !elem_of_cons in Hin.
  destruct Hin as [Hin|[Hin|[Hin|Hin]]];
    [injection Hin as -> -> .. | by apply elem_of_nil in Hin];
    reflexivity.
Qed.

Lemma parse_line_total (info : dict) (line : string) :
  exists info', parse_line info line = Ok info'.
Proof.
  unfold parse_line.
  destruct (Py.startswith "Firmware version:" (Py.strip line)) eqn:H1.
  { apply startswith_spec in H1 as [rest ->]. eexists. reflexivity. }
  destruct (Py.startswith "Form factor:" (Py.strip line)) eqn:H2.
  { apply startswith_spec in H2 as [rest ->]. eexists. reflexivity. }
  destruct (Py.startswith "Device type:" (Py.strip line)) eqn:H3.
  { apply startswith_spec in H3 as [rest ->]. eexists. reflexivity. }
  eexists. reflexivity.
Qed.

(** A line that does not carry [label] leaves the label's key alone. *)
Lemma parse_line_other (label key line : string) (info info' : dict) :
  (label, key) ∈ labels ->
  Py.startswith label (Py.strip line) = false ->
  parse_line info line = Ok info' ->
  info' !! key = info !! key.
Proof.
  intros Hin Hno. unfold parse_line.
  unfold labels in Hin. rewrite !elem_of_cons in Hin.
  destruct (Py.startswith "Firmware version:" (Py.strip line)) eqn:H1.
  { destruct (proj1 (startswith_spec _ _) H1) as [rest Hr]. rewrite Hr. simpl.
    intros [= <-].
    destruct Hin as [Hin|[Hin|[Hin|Hin]]];
      [injection Hin as -> -> .. | by apply elem_of_nil in Hin];
      [congruence | by rewrite lookup_insert_ne ..]. }
  destruct (Py.startswith "Form factor:" (Py.strip line)) eqn:H2.
  { destruct (proj1 (startswith_spec _ _) H2) as [rest Hr]. rewrite Hr. simpl.
    intros [= <-].
    destruct Hin as [Hin|[Hin|[Hin|Hin]]];
      [injection Hin as -> -> .. | by apply elem_of_nil in Hin];
      [by rewrite lookup_insert_ne | congruence | by rewrite lookup_insert_ne]. }
  destruct (Py.startswith "Device type:" (Py.strip line)) eqn:H3.
  { destruct (proj1 (startswith_spec _ _) H3) as [rest Hr]. rewrite Hr. simpl.
    intros [= <-].
    destruct Hin as [Hin|[Hin|[Hin|Hin]]];
      [injection Hin as -> -> .. | by apply elem_of_nil in Hin];
      [by rewrite lookup_insert_ne .. | congruence]. }
  intros [= <-]. reflexivity.
Qed.

Lemma parse_lines_total (lines : list string) (info : dict) :
  exists info', parse_lines lines info = Ok info'.
Proof.
  revert info. induction lines as [|l lines IH]; intros info; simpl.
  - eexists. reflexivity.
  - destruct (parse_line_total info l) as [i1 ->]. simpl. apply IH.
Qed.

Lemma parse_lines_other (label key : string) (lines : list string)
    (info info' : dict) :
  (label, key) ∈ labels ->
  (forall l, l ∈ lines -> Py.startswith label (Py.strip l) = false) ->
  parse_lines lines info = Ok info' ->
  info' !! key = info !! key.
Proof.
  intros Hin. revert info.
  induction lines as [|l lines IH]; intros info Hno; simpl.
  - intros [= <-]. reflexivity.
  - destruct (parse_line_total info l) as [i1 H1]. rewrite H1. simpl.
    intros H2. rewrite (IH i1); [| |exact H2].
    + eapply parse_line_other; eauto. apply Hno. left.
    + intros l' Hl'. apply Hno. by right.
Qed.

Lemma parse_lines_app (pre post : list string) (info : dict) :
  parse_lines (pre ++ post) info
  = bind_result (parse_lines pre info) (parse_lines post).
Proof.
  revert info. induction pre as [|l pre IH]; intros info; simpl; [reflexivity|].
  destruct (parse_line info l); simpl; [apply IH | reflexivity].
Qed.

(** The last line carrying a label decides the label's key. *)
Lemma parse_lines_last (label key rest l : string) (pre post : list string)
    (info : dict) :
  (label, key) ∈ labels ->
  Py.strip l = label +:+ rest ->
  (forall l', l' ∈ post -> Py.startswith label (Py.strip l') = false) ->
  exists info', parse_lines (pre ++ l :: post) info = Ok info'
                /\ info' !! key = Some (VStr (Py.strip rest)).
Proof.
  intros Hin Hl Hpost. rewrite parse_lines_app.
  destruct (parse_lines_total pre info) as [i1 ->]. simpl.
  rewrite (parse_line_labelled label key rest l i1 Hin Hl). simpl.
  destruct (parse_lines_total post (<[key:=VStr (Py.strip rest)]> i1)) as [i2 H2].
  exists i2. split; [exact H2|].
  rewrite (parse_lines_other label key post _ i2 Hin Hpost H2).
  apply lookup_insert_eq.
Qed.

End Parser.

Section ParserClaims.

(** C2, as stated, fails: with two [Firmware version:] lines the field
    holds the value of the second line, not of the first. *)
Lemma first_match_does_not_win :
  Py.split Py.LF two_versions = ["Firmware version: 1"; "Firmware version: 2"]
  /\ exists info,
       parse_yubikey_info two_versions = Ok info
       /\ info !! "version" = Some (VStr "2")
       /\ info !! "version" <> Some (VStr (Py.strip " 1")).
Proof.
  split; [reflexivity|].
  eexists. split; [vm_compute; reflexivity|].
  split; [reflexivity | discriminate].
Qed.

(** C2 (amended): [parse_yubikey_info] returns a value for every input
    text, and for each recognised label the last line that carries it,
    once stripped, decides the field: the field is the text after the
    label with leading and trailing whitespace removed. *)
Theorem parse_yubikey_info_last_match (text : string) :
  (exists info, parse_yubikey_info text = Ok info)
  /\ forall label key rest l pre post,
       (label, key) ∈ labels ->
       Py.split Py.LF text = (pre ++ l :: post) ->
       Py.strip l = label +:+ rest ->
       (forall l', l' ∈ post -> Py.startswith label (Py.strip l') = false) ->
       exists info, parse_yubikey_info text = Ok info
                    /\ info !! key = Some (VStr (Py.strip rest)).
Proof.
  split.
  - apply parse_lines_total.
  - intros label key rest l pre post Hin Hsplit Hl Hpost.
    unfold parse_yubikey_info. rewrite Hsplit.
    eapply parse_lines_last; eauto.
Qed.

Lemma parse_yubikey_info_last_match_witness :
  exists info, parse_yubikey_info two_versions = Ok info
               /\ info !! "version" = Some (VStr "2").
Proof.
  destruct (parse_yubikey_info_last_match two_versions) as [_ H].
  apply (H "Firmware version:" "version" " 2" "Firmware version: 2"
           ["Firmware version: 1"] []).
  - left.
  - reflexivity.
  - reflexivity.
  - intros l' Hl'. inversion Hl'.
Defined.

(** A field whose label occurs on no line keeps its default. *)
Lemma parse_yubikey_info_default (text label key : string) (info : dict) :
  (label, key) ∈ labels ->
  (forall l, l ∈ Py.split Py.LF text -> Py.startswith label (Py.strip l) = false) ->
  parse_yubikey_info text = Ok info ->
  info !! key = initial_info !! key.
Proof. intros Hin Hno H. eapply parse_lines_other; eauto. Qed.


Example flags_are_case_sensitive :
  Py.contains "FIPS" "YubiKey 5 fips" = false
  /\ Py.contains "FIPS" "YubiKey 5 FIPS Series" = true
  /\ Py.contains "SKY" "Security Key (SKY2)" = true
  /\ Py.contains "SKY" "Sky" = false.
Proof. vm_compute. auto. Qed.

End ParserClaims.

(** ** The persistence gateway *)

Section Persistence.

Lemma query_first_head (v : value) (rows : list YubiKey.t) :
  query_first v rows = head (rows_of v rows).
Proof.
  unfold query_first, rows_of. induction rows as [|r rows IH]; [reflexivity|].
  simpl. rewrite filter_cons. case_bool_decide; case_decide; try contradiction.
  - reflexivity.
  - exact IH.
Qed.

Lemma rows_of_app (v : value) (rows rows' : list YubiKey.t) :
  rows_of v (rows ++ rows') = rows_of v rows ++ rows_of v rows'.
Proof. apply filter_app. Qed.

Lemma rows_of_update_first (v : value) (new old : YubiKey.t)
    (rows : list YubiKey.t) :
  YubiKey.serial new = v ->
  rows_of v rows = [old] ->
  rows_of v (update_first v new rows) = [new].
Proof.
  intros Hnew. unfold rows_of.
  induction rows as [|r rows IH]; simpl; [discriminate|].
  rewrite filter_cons. case_bool_decide; case_decide; try contradiction.
  - intros [= _ Hrest]. rewrite filter_cons, decide_True by exact Hnew.
    by rewrite Hrest.
  - intros Hrows. rewrite filter_cons, decide_False by assumption. by apply IH.
Qed.

(** Rows of the other devices are left as they were. *)
Lemma rows_of_update_first_other (v v' : value) (new : YubiKey.t)
    (rows : list YubiKey.t) :
  YubiKey.serial new = v -> v' <> v ->
  rows_of v' (update_first v new rows) = rows_of v' rows.
Proof.
  intros Hnew Hne. unfold rows_of.
  induction rows as [|r rows IH]; simpl; [reflexivity|].
  case_bool_decide as Hr.
  - rewrite !filter_cons, !decide_False by congruence. reflexivity.
  - rewrite !filter_cons, IH. reflexivity.
Qed.

(** One successful save: the device has one row afterwards, carrying
    the saved attributes, and one detection is appended. *)
Lemma save_once (w : db_world) (info : dict) (raw : string) (d : database)
    (serial : value) :
  info !! "serial" = Some serial ->
  db_error w = None ->
  (length (rows_of serial (yubikeys_table d)) <= 1)%nat ->
  exists row d',
    save_yubikey_to_db w info raw d = (Ok row, d')
    /\ rows_of serial (yubikeys_table d') = [row]
    /\ YubiKey.version row = get info "version" (VStr "Unknown")
    /\ YubiKey.raw_info row = raw
    /\ YubiKey.last_seen row = db_now w
    /\ YubiKey.first_seen row
       = match head (rows_of serial (yubikeys_table d)) with
         | Some old => YubiKey.first_seen old
         | None => db_now w
         end
    /\ detections_table d'
       = detections_table d ++ [YubiKeyDetection.Build serial (db_now w) info].
Proof.
  intros Hserial Hok Huniq.
  unfold save_yubikey_to_db, save_transaction, getitem.
  rewrite Hserial. simpl. rewrite query_first_head, Hok.
  destruct (rows_of serial (yubikeys_table d)) as [|old rest] eqn:Hrows; simpl.
  - eexists _, _. split; [reflexivity|]. simpl.
    rewrite rows_of_app, Hrows. unfold rows_of.
    rewrite filter_cons, decide_True by reflexivity.
    repeat split; reflexivity.
  - destruct rest; [|simpl in Huniq; lia].
    assert (YubiKey.serial old = serial) as Hold.
    { assert (old ∈ rows_of serial (yubikeys_table d)) as Hin
        by (rewrite Hrows; left).
      unfold rows_of in Hin. by apply list_elem_of_filter in Hin as [? _]. }
    eexists _, _. split; [reflexivity|]. simpl.
    split; [|repeat split; reflexivity].
    eapply rows_of_update_first; [exact Hold | exact Hrows].
Qed.

(** C7: two successful saves of one identity leave exactly one row of
    table [yubikeys] for it, holding the attributes of the second save
    with [last_seen] at the second save and [first_seen] as set when the
    row was created, and append exactly one detection row per save. *)
Theorem save_yubikey_to_db_is_upsert
    (w1 w2 : db_world) (info1 info2 : dict) (raw1 raw2 : string)
    (d : database) (serial : value) :
  info1 !! "serial" = Some serial ->
  info2 !! "serial" = Some serial ->
  db_error w1 = None ->
  db_error w2 = None ->
  (length (rows_of serial (yubikeys_table d)) <= 1)%nat ->
  exists row1 d1 row2 d2,
    save_yubikey_to_db w1 info1 raw1 d = (Ok row1, d1)
    /\ save_yubikey_to_db w2 info2 raw2 d1 = (Ok row2, d2)
    /\ rows_of serial (yubikeys_table d2) = [row2]
    /\ YubiKey.version row2 = get info2 "version" (VStr "Unknown")
    /\ YubiKey.raw_info row2 = raw2
    /\ YubiKey.last_seen row2 = db_now w2
    /\ YubiKey.first_seen row2 = YubiKey.first_seen row1
    /\ YubiKey.first_seen row1
       = match head (rows_of serial (yubikeys_table d)) with
         | Some old => YubiKey.first_seen old
         | None => db_now w1
         end
    /\ detections_table d2
       = detections_table d
         ++ [YubiKeyDetection.Build serial (db_now w1) info1;
             YubiKeyDetection.Build serial (db_now w2) info2].
Proof.
  intros H1 H2 Hok1 Hok2 Huniq.
  destruct (save_once w1 info1 raw1 d serial H1 Hok1 Huniq)
    as (row1 & d1 & Hs1 & Hr1 & _ & _ & _ & Hf1 & Hd1).
  assert (length (rows_of serial (yubikeys_table d1)) <= 1)%nat as Huniq1
    by (rewrite Hr1; simpl; lia).
  destruct (save_once w2 info2 raw2 d1 serial H2 Hok2 Huniq1)
    as (row2 & d2 & Hs2 & Hr2 & Hv2 & Hraw2 & Hl2 & Hf2 & Hd2).
  exists row1, d1, row2, d2.
  rewrite Hr1 in Hf2. simpl in Hf2.
  rewrite Hd2, Hd1, <- app_assoc. simpl.
  repeat split; assumption || reflexivity.
Qed.

End Persistence.

Lemma save_yubikey_to_db_is_upsert_witness :
  exists row1 d1 row2 d2,
    save_yubikey_to_db (DbWorld 100 None) (reading "5.4.3") "a" empty_database
    = (Ok row1, d1)
    /\ save_yubikey_to_db (DbWorld 200 None) (reading "5.7.1") "b" d1
       = (Ok row2, d2)
    /\ rows_of (VInt 12345678) (yubikeys_table d2) = [row2]
    /\ YubiKey.version row2 = VStr "5.7.1"
    /\ YubiKey.raw_info row2 = "b"
    /\ YubiKey.last_seen row2 = 200
    /\ YubiKey.first_seen row2 = YubiKey.first_seen row1
    /\ YubiKey.first_seen row1 = 100
    /\ detections_table d2
       = [YubiKeyDetection.Build (VInt 12345678) 100 (reading "5.4.3");
          YubiKeyDetection.Build (VInt 12345678) 200 (reading "5.7.1")].
Proof.
  apply (save_yubikey_to_db_is_upsert
           (DbWorld 100 None) (DbWorld 200 None)
           (reading "5.4.3") (reading "5.7.1") "a" "b"
           empty_database (VInt 12345678)).
  - vm_compute. reflexivity.
  - vm_compute. reflexivity.
  - reflexivity.
  - reflexivity.
  - simpl. lia.
Defined.

(** ** The monitor loop *)

Section Monitor.

Lemma tag_info_serial (info : dict) (serial : Z) (text : string) :
  tag_info info serial text !! "serial" = Some (VInt serial).
Proof.
  unfold tag_info. rewrite !lookup_insert_ne by discriminate.
  apply lookup_insert_eq.
Qed.

Lemma fallback_info_serial (serial : Z) :
  fallback_info serial !! "serial" = Some (VInt serial).
Proof. apply lookup_insert_eq. Qed.

Lemma save_raises_iff (w : db_world) (info : dict) (raw : string)
    (d : database) (serial : value) :
  info !! "serial" = Some serial ->
  match db_error w with
  | Some e => save_yubikey_to_db w info raw d = (Raise e, d)
  | None => exists row d',
      save_yubikey_to_db w info raw d = (Ok row, d')
      /\ detections_table d'
         = detections_table d ++ [YubiKeyDetection.Build serial (db_now w) info]
  end.
Proof.
  intros Hs. unfold save_yubikey_to_db, save_transaction, getitem.
  rewrite Hs. simpl.
  destruct (query_first serial (yubikeys_table d));
    destruct (db_error w); eauto.
Qed.

(** One turn of the inner loop never raises; it appends [probe_entries]
    to the list and leaves the database as [probe_db] says. *)
Lemma probe_spec (e : env) (serial : Z) (s : store) :
  probe e serial s
  = (Ok tt, Store (probe_db e serial (db s)) (emitted s)
                  (yubikeys s ++ probe_entries e serial)).
Proof.
  unfold probe, probe_entries, probe_db, read_info, try_except, bind, lift.
  destruct (run_ykman_command e ["--device"; Py.str serial; "info"])
    as [out|msg]; simpl; [|reflexivity].
  destruct (parse_yubikey_info out) as [info|msg]; simpl; [|reflexivity].
  unfold save. simpl.
  pose proof (save_raises_iff (db_at e (tag_info info serial out) out)
                (tag_info info serial out) out (db s) (VInt serial)
                (tag_info_serial info serial out)) as Hsave.
  destruct (db_error (db_at e (tag_info info serial out) out)) as [err|].
  - rewrite Hsave. simpl. unfold yubikeys_append. simpl.
    by rewrite <- app_assoc.
  - destruct Hsave as (row & d' & -> & _). reflexivity.
Qed.

Lemma for_each_probe (e : env) (l : list Z) (s : store) :
  for_each l (probe e) s
  = (Ok tt, Store (fold_left (fun d x => probe_db e x d) l (db s)) (emitted s)
                  (yubikeys s ++ flat_map (probe_entries e) l)).
Proof.
  revert s. induction l as [|x l IH]; intros s; simpl.
  - rewrite app_nil_r. by destruct s.
  - unfold bind. rewrite probe_spec, IH. simpl. by rewrite <- app_assoc.
Qed.

Lemma monitor_body_failed (e : env) (prev : gset Z) (s : store) (msg : string) :
  enumerate e = Raise msg -> monitor_body e prev s = (Raise msg, s).
Proof. intros H. unfold monitor_body, bind, lift. by rewrite H. Qed.

Lemma monitor_body_idle (e : env) (prev : gset Z) (s : store) :
  enumerate e = Ok prev -> monitor_body e prev s = (Ok prev, s).
Proof.
  intros H. unfold monitor_body, bind, lift. rewrite H.
  rewrite decide_False by (intros Hne; by apply Hne). reflexivity.
Qed.

Lemma monitor_body_changed (e : env) (prev cur : gset Z) (s : store) :
  enumerate e = Ok cur -> cur <> prev ->
  monitor_body e prev s
  = (Ok cur,
     Store (fold_left (fun d x => probe_db e x d) (elements cur) (db s))
           (emitted s
            ++ [Event "yubikeys_update" (flat_map (probe_entries e) (elements cur))])
           (flat_map (probe_entries e) (elements cur))).
Proof.
  intros H Hne. unfold monitor_body, bind, lift. rewrite H.
  rewrite decide_True by exact Hne.
  unfold yubikeys_reset. rewrite for_each_probe. reflexivity.
Qed.

Lemma monitor_iteration_failed (e : env) (prev : gset Z) (s : store) (msg : string) :
  enumerate e = Raise msg -> monitor_iteration e prev s = (prev, s).
Proof.
  intros H. unfold monitor_iteration. by rewrite (monitor_body_failed e prev s msg).
Qed.

Lemma monitor_iteration_idle (e : env) (prev : gset Z) (s : store) :
  enumerate e = Ok prev -> monitor_iteration e prev s = (prev, s).
Proof.
  intros H. unfold monitor_iteration. by rewrite monitor_body_idle.
Qed.

Lemma monitor_iteration_changed (e : env) (prev cur : gset Z) (s : store) :
  enumerate e = Ok cur -> cur <> prev ->
  monitor_iteration e prev s
  = (cur,
     Store (fold_left (fun d x => probe_db e x d) (elements cur) (db s))
           (emitted s
            ++ [Event "yubikeys_update" (flat_map (probe_entries e) (elements cur))])
           (flat_map (probe_entries e) (elements cur))).
Proof.
  intros H Hne. unfold monitor_iteration.
  by rewrite (monitor_body_changed e prev cur s H Hne).
Qed.

(** Every entry appended for a device carries the device's serial. *)
Lemma probe_entries_serial (e : env) (serial : Z) (entry : dict) :
  entry ∈ probe_entries e serial -> entry !! "serial" = Some (VInt serial).
Proof.
  unfold probe_entries, read_info.
  destruct (run_ykman_command e ["--device"; Py.str serial; "info"])
    as [out|msg]; simpl.
  - destruct (parse_yubikey_info out) as [info|msg]; simpl.
    + destruct (db_error _); rewrite ?elem_of_cons, elem_of_nil;
        intros H; repeat destruct H as [H|H]; try done; subst;
        auto using tag_info_serial, fallback_info_serial.
    + rewrite list_elem_of_singleton. intros ->. apply fallback_info_serial.
  - rewrite list_elem_of_singleton. intros ->. apply fallback_info_serial.
Qed.

Lemma probe_entries_nonempty (e : env) (serial : Z) :
  exists entry, entry ∈ probe_entries e serial.
Proof.
  unfold probe_entries. destruct (read_info e serial) as [[info out]|msg].
  - destruct (db_error _); eexists; left.
  - eexists; left.
Qed.

Lemma filter_all {A} (P : A -> Prop) `{!forall x, Decision (P x)} (l : list A) :
  (forall x, x ∈ l -> P x) -> filter P l = l.
Proof.
  induction l as [|x l IH]; intros Hall; [reflexivity|].
  rewrite filter_cons_True by (apply Hall; left).
  f_equal. apply IH. intros y Hy. apply Hall. by right.
Qed.

Lemma filter_none {A} (P : A -> Prop) `{!forall x, Decision (P x)} (l : list A) :
  (forall x, x ∈ l -> ~ P x) -> filter P l = [].
Proof.
  induction l as [|x l IH]; intros Hall; [reflexivity|].
  rewrite filter_cons_False by (apply Hall; left).
  apply IH. intros y Hy. apply Hall. by right.
Qed.

Lemma entries_absent (e : env) (l : list Z) (serial : Z) :
  serial ∉ l ->
  filter (has_serial serial) (flat_map (probe_entries e) l) = [].
Proof.
  intros Hnot. apply filter_none. intros entry Hin Hs.
  apply list_elem_of_In, in_flat_map in Hin as (x & Hx & Hin).
  apply list_elem_of_In in Hx, Hin.
  apply probe_entries_serial in Hin. unfold has_serial in Hs.
  assert (x = serial) by congruence. subst. contradiction.
Qed.

(** The entries of a given device in the list built by the inner loop. *)
Lemma entries_of_serial (e : env) (l : list Z) (serial : Z) :
  NoDup l -> serial ∈ l ->
  filter (has_serial serial) (flat_map (probe_entries e) l)
  = probe_entries e serial.
Proof.
  induction 1 as [|x l Hx Hnd IH]; intros Hin; [by apply elem_of_nil in Hin|].
  simpl. rewrite filter_app.
  destruct (decide (x = serial)) as [->|Hne].
  - rewrite entries_absent by exact Hx. rewrite app_nil_r.
    apply filter_all. intros entry. apply probe_entries_serial.
  - rewrite (filter_none (has_serial serial) (probe_entries e x)).
    + apply IH. apply elem_of_cons in Hin as [Heq|Hin]; congruence.
    + intros entry Hentry Hs. apply probe_entries_serial in Hentry.
      unfold has_serial in Hs. congruence.
Qed.



End Monitor.

Section MonitorClaims.

(** An identity whose details cannot be read is not written to the
    store by the monitor loop. *)
Lemma probe_db_fetch_failed (e : env) (serial : Z) (d : database) (msg : string) :
  run_ykman_command e ["--device"; Py.str serial; "info"] = Raise msg ->
  probe_db e serial d = d.
Proof. intros H. unfold probe_db, read_info. by rewrite H. Qed.

(** C1: device 7 is enumerated but [ykman --device 7 info] exits with 1.
    The monitor loop broadcasts the fallback record for it and writes
    nothing to the store, while [list_yubikeys] with [auto_save] writes
    the fallback record with the error text as raw payload. *)
Theorem monitor_skips_fallback_persistence :
  (exists s',
     monitor_iteration world_7_mute ∅ initial_store = ({[7]}, s')
     /\ emitted s' = [Event "yubikeys_update" [fallback_info 7]]
     /\ db s' = empty_database)
  /\ (exists s',
        list_yubikeys world_7_mute true initial_store
        = (Ok (Success [basic_info 7] 1), s')
        /\ yubikeys_table (db s')
           = [YubiKey.Build (VInt 7) (VStr "Unknown") (VStr "Unknown")
                (VStr "YubiKey") (VBool false) (VBool false) 100 100
                "ykman error: Failed connecting"]
        /\ detections_table (db s')
           = [YubiKeyDetection.Build (VInt 7) 100 (basic_info 7)]).
Proof.
  split; eexists; (split; [vm_compute; reflexivity|]); split; reflexivity.
Qed.

(** C4: when the enumerated set differs from the previous one, the cycle
    sends one [yubikeys_update] message whose list has an entry for every
    enumerated identity; an identity whose details could not be read is
    there as the fallback record. *)
Theorem every_identity_is_broadcast
    (e : env) (prev cur : gset Z) (s : store) :
  enumerate e = Ok cur ->
  cur <> prev ->
  exists payload s',
    monitor_iteration e prev s = (cur, s')
    /\ emitted s' = emitted s ++ [Event "yubikeys_update" payload]
    /\ (forall serial, serial ∈ cur ->
          exists entry, entry ∈ payload /\ has_serial serial entry)
    /\ (forall serial msg, serial ∈ cur ->
          run_ykman_command e ["--device"; Py.str serial; "info"] = Raise msg ->
          filter (has_serial serial) payload = [fallback_info serial]).
Proof.
  intros Henum Hne. eexists _, _.
  split; [apply (monitor_iteration_changed e prev cur s Henum Hne)|].
  split; [reflexivity|]. simpl. split.
  - intros serial Hin.
    destruct (probe_entries_nonempty e serial) as [entry Hentry].
    exists entry. split; [|by apply probe_entries_serial in Hentry].
    apply list_elem_of_In, in_flat_map. exists serial.
    split; apply list_elem_of_In; [by apply elem_of_elements | exact Hentry].
  - intros serial msg Hin Hfail.
    rewrite entries_of_serial;
      [|apply NoDup_elements | by apply elem_of_elements].
    unfold probe_entries, read_info. by rewrite Hfail.
Qed.

Lemma every_identity_is_broadcast_witness :
  exists payload s',
    monitor_iteration world_7_mute ∅ initial_store = ({[7]}, s')
    /\ emitted s' = emitted initial_store ++ [Event "yubikeys_update" payload]
    /\ (forall serial, serial ∈ ({[7]} : gset Z) ->
          exists entry, entry ∈ payload /\ has_serial serial entry)
    /\ (forall serial msg, serial ∈ ({[7]} : gset Z) ->
          run_ykman_command world_7_mute ["--device"; Py.str serial; "info"]
          = Raise msg ->
          filter (has_serial serial) payload = [fallback_info serial]).
Proof.
  apply (every_identity_is_broadcast world_7_mute ∅ {[7]} initial_store).
  - vm_compute. reflexivity.
  - intros H. assert (7 ∈ (∅ : gset Z)) as Hin by (rewrite <- H; set_solver).
    set_solver.
Defined.

(** C10: when the details of an identity are read and parsed but the
    store rejects the write, the list sent in that cycle holds exactly
    two entries for the identity: the parsed attributes, then the
    fallback record. *)
Theorem failed_save_duplicates_entry
    (e : env) (prev cur : gset Z) (s : store)
    (serial : Z) (info_output : string) (info : dict) (msg : string) :
  enumerate e = Ok cur ->
  cur <> prev ->
  serial ∈ cur ->
  run_ykman_command e ["--device"; Py.str serial; "info"] = Ok info_output ->
  parse_yubikey_info info_output = Ok info ->
  db_error (db_at e (tag_info info serial info_output) info_output) = Some msg ->
  exists payload s',
    monitor_iteration e prev s = (cur, s')
    /\ emitted s' = emitted s ++ [Event "yubikeys_update" payload]
    /\ filter (has_serial serial) payload
       = [tag_info info serial info_output; fallback_info serial].
Proof.
  intros Henum Hne Hin Hrun Hparse Herr. eexists _, _.
  split; [apply (monitor_iteration_changed e prev cur s Henum Hne)|].
  split; [reflexivity|]. simpl.
  rewrite entries_of_serial;
    [|apply NoDup_elements | by apply elem_of_elements].
  unfold probe_entries, read_info. rewrite Hrun. simpl.
  rewrite Hparse. simpl. by rewrite Herr.
Qed.

Lemma failed_save_duplicates_entry_witness :
  exists payload s',
    monitor_iteration world_7_store_down ∅ initial_store = ({[7]}, s')
    /\ emitted s' = emitted initial_store ++ [Event "yubikeys_update" payload]
    /\ filter (has_serial 7) payload
       = [tag_info (<["version" := VStr "5.4.3"]>
                      (<["form_factor" := VStr "USB-A Keychain"]>
                         (<["device_type" := VStr "YubiKey 5"]> ∅)))
                   7 sample_info;
          fallback_info 7].
Proof.
  apply (failed_save_duplicates_entry world_7_store_down ∅ {[7]} initial_store
           7 sample_info _ "connection refused").
  - vm_compute. reflexivity.
  - intros H. assert (7 ∈ (∅ : gset Z)) as Hin by (rewrite <- H; set_solver).
    set_solver.
  - set_solver.
  - vm_compute. reflexivity.
  - vm_compute. reflexivity.
  - reflexivity.
Defined.

End MonitorClaims.

Section Reconciler.


Lemma enumerate_fails (e : env) :
  match subprocess_run e ["ykman"; "list"; "--serials"] with
  | CompletedProcess returncode _ _ => returncode <> 0
  | _ => True
  end ->
  exists msg, enumerate e = Raise msg.
Proof.
  unfold enumerate, run_ykman_command.
  destruct (subprocess_run e ["ykman"; "list"; "--serials"])
    as [rc out err| | |msg]; intros H; simpl; eauto.
  destruct (Z.eqb_spec rc 0); [contradiction|]. simpl. eauto.
Qed.

Lemma monitor_run_last_success (es : list env) (prev : gset Z) (s : store) :
  fst (monitor_run es prev s) = last_success es prev.
Proof.
  revert prev s. induction es as [|e es IH]; intros prev s; simpl; [reflexivity|].
  destruct (enumerate e) as [cur|msg] eqn:He.
  - destruct (decide (cur = prev)) as [->|Hne].
    + rewrite (monitor_iteration_idle e prev s He). apply IH.
    + rewrite (monitor_iteration_changed e prev cur s He Hne). apply IH.
  - rewrite (monitor_iteration_failed e prev s msg He). apply IH.
Qed.




(** C5: when the enumeration fails (no [ykman] binary, a timeout, a
    non-zero exit status, or any other exception) the cycle leaves the
    previous set and the store as they were, and after any number of
    cycles the set held by the loop is the one reported by the last
    cycle whose enumeration went through. *)
Theorem enumeration_failure_is_fail_static
    (e : env) (es : list env) (prev : gset Z) (s : store) :
  (match subprocess_run e ["ykman"; "list"; "--serials"] with
   | CompletedProcess returncode _ _ => returncode <> 0
   | _ => True
   end ->
   monitor_iteration e prev s = (prev, s))
  /\ (forall msg, enumerate e = Raise msg ->
        monitor_iteration e prev s = (prev, s))
  /\ fst (monitor_run es prev s) = last_success es prev.
Proof.
  split; [|split].
  - intros H. destruct (enumerate_fails e H) as [msg Hmsg].
    by apply (monitor_iteration_failed e prev s msg).
  - intros msg. apply monitor_iteration_failed.
  - apply monitor_run_last_success.
Qed.

Lemma enumeration_failure_is_fail_static_witness :
  monitor_iteration world_no_ykman {[7]} initial_store = ({[7]}, initial_store)
  /\ fst (monitor_run [world_7_8; world_no_ykman; world_7; world_no_ykman]
            ∅ initial_store)
     = {[7]}.
Proof.
  destruct (enumeration_failure_is_fail_static world_no_ykman
              [world_7_8; world_no_ykman; world_7; world_no_ykman]
              {[7]} initial_store) as (H1 & _ & _).
  destruct (enumeration_failure_is_fail_static world_no_ykman
              [world_7_8; world_no_ykman; world_7; world_no_ykman]
              ∅ initial_store) as (_ & _ & H3).
  split.
  - apply H1. exact I.
  - rewrite H3. vm_compute. reflexivity.
Defined.

End Reconciler.

(** ** The connect and disconnect handlers *)

Section Handlers.

Lemma invariant_initial : invariant initial_system.
Proof. split; simpl; try done. Qed.

Ltac split_lookup :=
  match goal with
  | H : <[_:=_]> _ !! _ = Some _ |- _ =>
      apply list_lookup_insert_Some in H as [(? & ? & ?)|(? & H)]; simplify_eq
  end.

Lemma handler_step_invariant (i : nat) (σ σ' : system) :
  invariant σ -> handler_step i σ = Some σ' -> invariant σ'.
Proof.
  intros [Hlock Hthread Hnone Hstart Hassign Hafter] Hstep.
  unfold handler_step in Hstep.
  destruct (handlers σ !! i) as [p|] eqn:Hp; [|done].
  assert (forall j q, handlers σ !! j = Some q -> critical q = true ->
                      critical p = true -> j = i) as Huniq.
  { intros j q Hj Hq Hcp. apply Hlock in Hj; [|done]. apply Hlock in Hp; [|done].
    congruence. }
  assert (forall q, (forall j h, <[i:=q]> (handlers σ) !! j <> Some (ConnectAssign h)) ->
            (forall h, p <> ConnectAssign h) ->
            forall j h, handlers σ !! j <> Some (ConnectAssign h)) as Hno.
  { intros q Hq Hpne j h Hj. destruct (decide (i = j)) as [<-|Hne].
    - rewrite Hp in Hj. injection Hj as ->. by eapply Hpne.
    - apply (Hq j h). by rewrite list_lookup_insert_ne. }
  assert (i < length (handlers σ))%nat as Hlen by (by eapply lookup_lt_Some).
  destruct p; simpl in Hstep; try done;
    repeat case_match; simplify_eq; split; simpl.
  all: try (by (intros; try split_lookup; simpl in *; try done; eauto)).
  all: try (by (intros Hth Hall; apply Hnone; [done|]; by eapply Hno)).
  all: try (by (intros; try split_lookup; simpl in *; try done;
            match goal with Hj : handlers _ !! ?j = Some ?q |- _ =>
              apply (Huniq j q) in Hj; done end)).
  all: try (by (intros; try split_lookup; simpl in *; try done;
            match goal with Hj : handlers _ !! ?j = Some ?q |- _ =>
              apply Hlock in Hj; done end)).
  all: try (by (intros; try split_lookup; simpl in *; try done; congruence)).
  all: try (by (intros; try split_lookup; simpl in *; try done; by eapply Hafter)).
  all: try (by (intros; simplify_eq; by edestruct Hassign as [_ ?])).
  - intros j q Hj Hq. split_lookup; try done.
    exfalso. by eapply (Hafter j q).
  - intros h Hh. specialize (Hstart i Hp). congruence.
  - intros _ Hall. exfalso. eapply (Hall i). by apply list_lookup_insert_eq.
  - assert (tasks σ = []) as ->.
    { apply Hnone; [by eapply Hstart|].
      intros j h Hj. pose proof (Huniq j _ Hj eq_refl eq_refl) as ->.
      rewrite Hp in Hj. discriminate. }
    intros j h Hj. split; [by eapply Hstart | reflexivity].
Qed.

Lemma lookup_snoc (l : list pc) (p q : pc) (j : nat) :
  (l ++ [p]) !! j = Some q -> l !! j = Some q \/ (j = length l /\ q = p).
Proof.
  intros H. apply lookup_app_Some in H as [H|[Hle H]]; [by left|right].
  apply list_lookup_singleton_Some in H as [Hj ->]. split; [lia|done].
Qed.

Lemma arrive_invariant (σ : system) (p : pc) :
  critical p = false -> after_start p = false ->
  p <> ConnectStart -> (forall h, p <> ConnectAssign h) ->
  invariant σ ->
  invariant (System (thread σ) (thread_lock σ) (connected_clients σ) (tasks σ)
                    (shared σ) (handlers σ ++ [p])).
Proof.
  intros Hc Ha Hs Has [Hlock Hthread Hnone Hstart Hassign Hafter].
  split; simpl.
  - intros j q Hj Hq. apply lookup_snoc in Hj as [Hj|[-> ->]]; [eauto|congruence].
  - done.
  - intros Hth Hall. apply Hnone; [done|]. intros j h Hj.
    apply (Hall j h). by apply lookup_app_l_Some.
  - intros j Hj. apply lookup_snoc in Hj as [Hj|[-> Hq]]; [eauto|congruence].
  - intros j h Hj. apply lookup_snoc in Hj as [Hj|[-> Hq]]; [eauto|].
    by destruct (Has h).
  - intros j q Hj Hq. apply lookup_snoc in Hj as [Hj|[-> ->]]; [eauto|congruence].
Qed.

Lemma task_step_invariant (j : nat) (e : env) (σ σ' : system) :
  invariant σ -> task_step j e σ = Some σ' -> invariant σ'.
Proof.
  intros [Hlock Hthread Hnone Hstart Hassign Hafter]. unfold task_step.
  destruct (tasks σ !! j) as [prev|] eqn:Hj; [|done].
  destruct (monitor_iteration e prev (shared σ)) as [cur s'].
  intros [= <-]. split; simpl; try done.
  - intros h Hh. rewrite length_insert. eauto.
  - intros Hth Hall. rewrite Hnone in Hj by done. done.
  - intros i h Hi. rewrite length_insert. eauto.
Qed.

Lemma step_invariant (a : action) (σ σ' : system) :
  invariant σ -> step a σ = Some σ' -> invariant σ'.
Proof.
  destruct a as [[]|i|j e]; simpl.
  - intros Hinv [= <-]. by apply arrive_invariant.
  - intros Hinv [= <-]. by apply arrive_invariant.
  - apply handler_step_invariant.
  - apply task_step_invariant.
Qed.

Lemma run_invariant (schedule : list action) (σ σ' : system) :
  invariant σ -> run schedule σ = Some σ' -> invariant σ'.
Proof.
  revert σ. induction schedule as [|a schedule IH]; intros σ Hinv; simpl.
  - by intros [= <-].
  - destruct (step a σ) as [σ1|] eqn:Hstep; [|done].
    apply IH. by eapply step_invariant.
Qed.

Lemma invariant_tasks (σ : system) :
  invariant σ ->
  (length (tasks σ) <= 1)%nat
  /\ (ConnectReturned ∈ handlers σ -> length (tasks σ) = 1%nat).
Proof.
  intros [Hlock Hthread Hnone Hstart Hassign Hafter]. split.
  - destruct (thread σ) as [h|] eqn:Hth; [by rewrite (Hthread h)|].
    destruct (decide (Exists (fun p => is_assign p = true) (handlers σ)))
      as [Hex|Hnex].
    + apply Exists_exists in Hex as (p & Hin & Hp).
      destruct p; try discriminate.
      apply list_elem_of_lookup in Hin as [i Hi].
      by destruct (Hassign i h Hi) as [_ ->].
    + rewrite Hnone; [simpl; lia|done|]. intros i h Hi. apply Hnex.
      apply Exists_exists. exists (ConnectAssign h).
      split; [by eapply list_elem_of_lookup_2|done].
  - intros Hin. apply list_elem_of_lookup in Hin as [i Hi].
    destruct (thread σ) as [h|] eqn:Hth; [by apply (Hthread h)|].
    by destruct (Hafter i _ Hi eq_refl).
Qed.

Lemma holder_ok_initial : holder_ok initial_system.
Proof. intros i Hi. discriminate. Qed.

Lemma handler_step_holder (i : nat) (σ σ' : system) :
  invariant σ -> holder_ok σ -> handler_step i σ = Some σ' -> holder_ok σ'.
Proof.
  intros [Hlock _ _ _ _ _] Hholder. unfold handler_step.
  destruct (handlers σ !! i) as [p|] eqn:Hp; [|done].
  assert (i < length (handlers σ))%nat as Hlen by (by eapply lookup_lt_Some).
  destruct p; try done; repeat case_match; intros [= <-] k Hk; simpl in *;
    simplify_eq;
    try (rewrite (Hlock i _ Hp eq_refl) in Hk; simplify_eq);
    (eexists; split; [by apply list_lookup_insert_eq|done]).
Qed.

Lemma step_holder (a : action) (σ σ' : system) :
  invariant σ -> holder_ok σ -> step a σ = Some σ' -> holder_ok σ'.
Proof.
  destruct a as [[]|i|j e]; simpl.
  - intros _ Hh [= <-] k Hk. destruct (Hh k Hk) as (p & Hp & Hc).
    exists p. split; [by apply lookup_app_l_Some|done].
  - intros _ Hh [= <-] k Hk. destruct (Hh k Hk) as (p & Hp & Hc).
    exists p. split; [by apply lookup_app_l_Some|done].
  - apply handler_step_holder.
  - intros _ Hh. unfold task_step.
    destruct (tasks σ !! j) as [prev|]; [|done].
    destruct (monitor_iteration e prev (shared σ)) as [cur s'].
    by intros [= <-].
Qed.

Lemma sum_rank_insert (l : list pc) (i : nat) (p p' : pc) :
  l !! i = Some p -> (rank p' < rank p)%nat ->
  (sum_list (rank <$> <[i:=p']> l) < sum_list (rank <$> l))%nat.
Proof.
  revert i. induction l as [|q l IH]; intros [|i] Hi Hlt; simplify_eq/=.
  - lia.
  - specialize (IH i Hi Hlt). lia.
Qed.

Lemma handler_step_rank (i : nat) (σ σ' : system) :
  handler_step i σ = Some σ' -> (remaining σ' < remaining σ)%nat.
Proof.
  unfold handler_step, remaining.
  destruct (handlers σ !! i) as [p|] eqn:Hp; [|done].
  destruct p; try done; repeat case_match; intros [= <-]; simpl;
    (eapply sum_rank_insert; [exact Hp|simpl; lia]).
Qed.

Lemma handler_step_kind (i : nat) (σ σ' : system) :
  handler_step i σ = Some σ' -> kind <$> handlers σ' = kind <$> handlers σ.
Proof.
  unfold handler_step.
  destruct (handlers σ !! i) as [p|] eqn:Hp; [|done].
  destruct p; try done; repeat case_match; intros [= <-]; simpl;
    rewrite list_fmap_insert; apply list_insert_id; by rewrite list_lookup_fmap, Hp.
Qed.

Lemma handler_step_tasks (i : nat) (σ σ' : system) :
  handler_step i σ = Some σ' -> shared σ' = shared σ.
Proof.
  unfold handler_step.
  destruct (handlers σ !! i) as [p|] eqn:Hp; [|done].
  destruct p; try done; repeat case_match; by intros [= <-].
Qed.

Lemma pending_handler (l : list pc) :
  (0 < sum_list (rank <$> l))%nat ->
  exists i p, l !! i = Some p /\ (0 < rank p)%nat.
Proof.
  induction l as [|q l IH]; [simpl; lia|]. rewrite fmap_cons. simpl. intros H.
  destruct (decide (0 < rank q)%nat) as [Hq|Hq].
  - exists 0%nat, q. done.
  - destruct IH as (i & p & Hi & Hp); [lia|]. exists (S i), p. done.
Qed.

Lemma handlers_progress (σ : system) :
  invariant σ -> holder_ok σ -> (0 < remaining σ)%nat ->
  exists i σ', handler_step i σ = Some σ'.
Proof.
  intros [Hlock _ _ _ _ _] Hholder Hrem.
  destruct (thread_lock σ) as [k|] eqn:Hk.
  - destruct (Hholder k Hk) as (q & Hq & Hc). exists k.
    unfold handler_step. rewrite Hq.
    destruct q; try discriminate; repeat case_match; eauto.
  - destruct (pending_handler _ Hrem) as (i & p & Hi & Hp). exists i.
    unfold handler_step. rewrite Hi, ?Hk.
    destruct p; simpl in Hp; try lia; try (by eauto);
      specialize (Hlock i _ Hi eq_refl); congruence.
Qed.

Lemma handlers_complete (n : nat) (σ : system) :
  (remaining σ <= n)%nat -> invariant σ -> holder_ok σ ->
  exists (order : list nat) (σ' : system),
    run (Handler <$> order) σ = Some σ' /\ remaining σ' = 0%nat.
Proof.
  revert σ. induction n as [|n IH]; intros σ Hn Hinv Hh.
  - exists [], σ. split; [done|lia].
  - destruct (decide (remaining σ = 0)%nat) as [H0|H0].
    { exists [], σ. done. }
    destruct (handlers_progress σ Hinv Hh) as (i & σ1 & Hstep); [lia|].
    destruct (IH σ1) as (order & σ' & Hrun & Hdone).
    + apply handler_step_rank in Hstep. lia.
    + by eapply (step_invariant (Handler i)).
    + by eapply (step_holder (Handler i)).
    + exists (i :: order), σ'. simpl. rewrite Hstep. done.
Qed.
Lemma run_app (a b : list action) (σ : system) :
  run (a ++ b) σ = run a σ ≫= run b.
Proof.
  revert σ. induction a as [|x a IH]; intros σ; simpl; [done|].
  destruct (step x σ); simpl; [apply IH | done].
Qed.

Lemma run_holder (schedule : list action) (σ σ' : system) :
  invariant σ -> holder_ok σ -> run schedule σ = Some σ' -> holder_ok σ'.
Proof.
  revert σ. induction schedule as [|a schedule IH]; intros σ Hinv Hh; simpl.
  - by intros [= <-].
  - destruct (step a σ) as [σ1|] eqn:Hstep; [|done].
    apply IH; [by eapply step_invariant | by eapply step_holder].
Qed.

Lemma run_handlers_kind (order : list nat) (σ σ' : system) :
  run (Handler <$> order) σ = Some σ' ->
  kind <$> handlers σ' = kind <$> handlers σ.
Proof.
  revert σ. induction order as [|i order IH]; intros σ; simpl.
  - by intros [= <-].
  - destruct (handler_step i σ) as [σ1|] eqn:Hstep; [|done].
    intros Hrun. rewrite (IH σ1 Hrun). by apply (handler_step_kind i).
Qed.

Lemma run_arrivals (N : nat) (σ : system) :
  run (replicate N (Arrive Connect)) σ
  = Some (System (thread σ) (thread_lock σ) (connected_clients σ) (tasks σ)
                 (shared σ) (handlers σ ++ replicate N ConnectAcquire)).
Proof.
  revert σ. induction N as [|N IH]; intros σ; simpl.
  - rewrite app_nil_r. by destruct σ.
  - rewrite IH. simpl. by rewrite <- app_assoc.
Qed.

Lemma all_connects_returned (l : list pc) (N : nat) :
  sum_list (rank <$> l) = 0%nat ->
  kind <$> l = replicate N Connect ->
  l = replicate N ConnectReturned.
Proof.
  revert N. induction l as [|q l IH]; intros [|N]; rewrite ?fmap_cons; simpl;
    try done.
  intros Hsum [= Hq Hl]. rewrite (IH N); [|lia|done].
  f_equal. destruct q; simpl in *; done || lia.
Qed.

(** X22: N concurrent connects can always run to completion, and then one
    background task has been started. *)
Theorem connects_complete (N : nat) :
  (0 < N)%nat ->
  exists (order : list nat) (σ : system),
    run (replicate N (Arrive Connect) ++ (Handler <$> order)) initial_system
    = Some σ
    /\ handlers σ = replicate N ConnectReturned
    /\ length (tasks σ) = 1%nat.
Proof.
  intros HN.
  pose proof (run_arrivals N initial_system) as Harr. simpl in Harr.
  set (σ1 := System None None 0 [] initial_store (replicate N ConnectAcquire)) in *.
  pose proof (run_invariant _ _ _ invariant_initial Harr) as Hinv1.
  pose proof (run_holder _ _ _ invariant_initial holder_ok_initial Harr) as Hh1.
  destruct (handlers_complete (remaining σ1) σ1 (le_n _) Hinv1 Hh1)
    as (order & σ & Hrun & Hdone).
  exists order, σ.
  assert (handlers σ = replicate N ConnectReturned) as Hall.
  { apply all_connects_returned; [exact Hdone|].
    rewrite (run_handlers_kind order σ1 σ Hrun). simpl.
    by rewrite fmap_replicate. }
  split; [rewrite run_app, Harr; exact Hrun|]. split; [exact Hall|].
  apply (invariant_tasks σ (run_invariant _ _ _ Hinv1 Hrun)).
  rewrite Hall. destruct N; [lia|left].
Qed.

(** C6: whatever the number of connect events and however the
    statements of their handlers interleave, at most one background task
    is started, and exactly one has been started as soon as one
    [handle_connect] has returned; in particular after N connects. *)
Theorem one_loop_for_any_connects (schedule : list action) (σ : system) :
  run schedule initial_system = Some σ ->
  (length (tasks σ) <= 1)%nat
  /\ (ConnectReturned ∈ handlers σ -> length (tasks σ) = 1%nat)
  /\ (forall N, (0 < N)%nat -> handlers σ = replicate N ConnectReturned ->
        length (tasks σ) = 1%nat).
Proof.
  intros Hrun.
  destruct (invariant_tasks σ (run_invariant _ _ _ invariant_initial Hrun))
    as [Hle Hone].
  split; [exact Hle|]. split; [exact Hone|].
  intros N HN Hall. apply Hone. rewrite Hall.
  destruct N; [lia|]. left.
Qed.

Lemma one_loop_for_any_connects_witness :
  exists σ,
    run three_connects initial_system = Some σ
    /\ handlers σ = replicate 3 ConnectReturned
    /\ connected_clients σ = 3
    /\ length (tasks σ) = 1%nat.
Proof.
  destruct (run three_connects initial_system) as [σ|] eqn:Hrun;
    [|vm_compute in Hrun; discriminate].
  destruct (one_loop_for_any_connects three_connects σ Hrun) as (_ & _ & H3).
  exists σ. split; [reflexivity|].
  vm_compute in Hrun. injection Hrun as <-.
  split; [reflexivity|]. split; [reflexivity|].
  apply (H3 3%nat); [lia | reflexivity].
Defined.

Lemma step_keeps_loop (a : action) (σ σ' : system) :
  step a σ = Some σ' ->
  (length (tasks σ) <= length (tasks σ'))%nat
  /\ (is_Some (thread σ) -> is_Some (thread σ')).
Proof.
  destruct a as [[]|i|j e]; simpl.
  - by intros [= <-].
  - by intros [= <-].
  - unfold handler_step. destruct (handlers σ !! i) as [p|]; [|done].
    destruct p; try done; repeat case_match; intros [= <-]; simpl;
      rewrite ?length_app; (split; [lia|]); first [by eauto | by intros [? ?]].
  - unfold task_step. destruct (tasks σ !! j) as [prev|]; [|done].
    destruct (monitor_iteration e prev (shared σ)) as [cur s'].
    intros [= <-]. simpl. by rewrite length_insert.
Qed.

Lemma run_keeps_loop (schedule : list action) (σ σ' : system) :
  run schedule σ = Some σ' ->
  (length (tasks σ) <= length (tasks σ'))%nat
  /\ (is_Some (thread σ) -> is_Some (thread σ')).
Proof.
  revert σ. induction schedule as [|a schedule IH]; intros σ; simpl.
  - by intros [= <-].
  - destruct (step a σ) as [σ1|] eqn:Hstep; [|done]. intros Hrun.
    destruct (step_keeps_loop a σ σ1 Hstep) as [H1 H2].
    destruct (IH σ1 Hrun) as [H3 H4]. split; [lia|auto].
Qed.

(** A whole [handle_disconnect] only decrements [connected_clients]. *)
Lemma handle_disconnect_effect (i : nat) (σ : system) :
  handlers σ !! i = Some DisconnectAcquire ->
  thread_lock σ = None ->
  run [Handler i; Handler i; Handler i; Handler i] σ
  = Some (System (thread σ) None (connected_clients σ - 1) (tasks σ)
                 (shared σ) (<[i := DisconnectReturned]> (handlers σ))).
Proof.
  intros Hi Hlock.
  assert (i < length (handlers σ))%nat as Hlen by (by eapply lookup_lt_Some).
  simpl. unfold handler_step at 1. rewrite Hi, Hlock.
  unfold handler_step at 1. simpl.
  rewrite list_lookup_insert_eq by exact Hlen.
  unfold handler_step at 1. simpl.
  rewrite list_lookup_insert_eq by (by rewrite length_insert).
  unfold handler_step at 1. simpl.
  rewrite list_lookup_insert_eq by (by rewrite !length_insert).
  by rewrite !list_insert_insert_eq.
Qed.

(** C8: no step of the process stops a started loop. Along any schedule
    the started background tasks stay, the global [thread] stays set,
    and every started task can take its next loop turn in any world,
    whatever [connected_clients] has become; a whole [handle_disconnect]
    changes nothing but [connected_clients], which it decrements. *)
Theorem loop_is_never_stopped (schedule : list action) (σ σ' : system) :
  run schedule σ = Some σ' ->
  (length (tasks σ) <= length (tasks σ'))%nat
  /\ (is_Some (thread σ) -> is_Some (thread σ'))
  /\ (forall j e, (j < length (tasks σ))%nat -> is_Some (step (Task j e) σ'))
  /\ (forall i,
        handlers σ' !! i = Some DisconnectAcquire ->
        thread_lock σ' = None ->
        run [Handler i; Handler i; Handler i; Handler i] σ'
        = Some (System (thread σ') None (connected_clients σ' - 1) (tasks σ')
                       (shared σ') (<[i := DisconnectReturned]> (handlers σ')))).
Proof.
  intros Hrun. destruct (run_keeps_loop schedule σ σ' Hrun) as [Hlen Hth].
  split; [exact Hlen|]. split; [exact Hth|]. split.
  - intros j e Hj. simpl. unfold task_step.
    destruct (lookup_lt_is_Some_2 (tasks σ') j) as [prev ->]; [lia|].
    destruct (monitor_iteration e prev (shared σ')). eauto.
  - intros i. apply handle_disconnect_effect.
Qed.

Lemma loop_is_never_stopped_witness :
  exists σ0 σ,
    run one_connect initial_system = Some σ0
    /\ run then_leave σ0 = Some σ
    /\ connected_clients σ = 0
    /\ is_Some (thread σ)
    /\ length (tasks σ) = 1%nat
    /\ is_Some (step (Task 0 world_7) σ).
Proof.
  destruct (run one_connect initial_system) as [σ0|] eqn:H0;
    [|vm_compute in H0; discriminate].
  vm_compute in H0. injection H0 as <-.
  match goal with |- exists σ0 σ, Some ?x = _ /\ _ =>
    destruct (run then_leave x) as [σ|] eqn:H1;
      [|vm_compute in H1; discriminate];
    destruct (loop_is_never_stopped then_leave x σ H1) as (Hlen & Hth & Hstep & _);
    exists x, σ
  end.
  split; [reflexivity|]. split; [exact H1|].
  split; [vm_compute in H1; injection H1 as <-; reflexivity|].
  split; [apply Hth; simpl; eauto|].
  split; [vm_compute in H1; injection H1 as <-; reflexivity|].
  apply Hstep. simpl. lia.
Defined.

End Handlers.

(** * Further properties of the code *)

(** ** Whitespace *)

Section Whitespace.

Lemma rstrip_idem (s : string) : Py.rstrip (Py.rstrip s) = Py.rstrip s.
Proof.
  induction s as [|c s IH]; [reflexivity|]. simpl.
  destruct (Py.rstrip s) as [|a r] eqn:Hr.
  - destruct (Py.isspace c) eqn:Hc; simpl; [reflexivity|]. by rewrite Hc.
  - change (Py.rstrip (String c (String a r)))
      with (match Py.rstrip (String a r) with
            | EmptyString =>
                if Py.isspace c then EmptyString else String c EmptyString
            | r' => String c r'
            end).
    by rewrite IH.
Qed.

Lemma rstrip_nonspace (c : ascii) (s : string) :
  Py.isspace c = false -> Py.rstrip (String c s) = String c (Py.rstrip s).
Proof. intros Hc. simpl. destruct (Py.rstrip s); by rewrite ?Hc. Qed.

Lemma lstrip_head (s : string) :
  Py.lstrip s = EmptyString
  \/ exists c t, Py.lstrip s = String c t /\ Py.isspace c = false.
Proof.
  induction s as [|c s IH]; simpl; [by left|].
  destruct (Py.isspace c) eqn:Hc; [exact IH|]. right. eauto.
Qed.

Lemma lstrip_nonspace (c : ascii) (s : string) :
  Py.isspace c = false -> Py.lstrip (String c s) = String c s.
Proof. intros Hc. simpl. by rewrite Hc. Qed.

Lemma strip_idem (s : string) : Py.strip (Py.strip s) = Py.strip s.
Proof.
  unfold Py.strip. destruct (lstrip_head s) as [->|(c & t & -> & Hc)].
  - reflexivity.
  - rewrite (rstrip_nonspace c t Hc), (lstrip_nonspace c _ Hc).
    rewrite <- (rstrip_nonspace c t Hc). apply rstrip_idem.
Qed.

Lemma split_app (sep : ascii) (a b : string) :
  Py.split sep (a +:+ String sep b) = Py.split sep a ++ Py.split sep b.
Proof.
  induction a as [|c a IH].
  - rewrite append_nil. simpl. by rewrite Ascii.eqb_refl.
  - rewrite append_cons. simpl. destruct (Ascii.eqb c sep).
    + by rewrite IH.
    + rewrite IH. destruct (Py.split sep a) as [|hd tl] eqn:Ha; [|reflexivity].
      by destruct (split_nonempty sep a).
Qed.

End Whitespace.

(** ** More on the attribute parser *)

Section ParserShape.

Lemma parse_line_cases (info : dict) (line : string) :
  (labelled line = false /\ parse_line info line = Ok info)
  \/ (labelled line = true
      /\ exists label key rest,
           (label, key) ∈ labels
           /\ Py.strip line = label +:+ rest
           /\ parse_line info line = Ok (<[key := VStr (Py.strip rest)]> info)).
Proof.
  unfold labelled, parse_line.
  destruct (Py.startswith "Firmware version:" (Py.strip line)) eqn:H1.
  { right. split; [done|].
    destruct (proj1 (startswith_spec _ _) H1) as [rest Hr].
    exists "Firmware version:", "version", rest.
    split; [left|]. split; [done|]. by rewrite Hr. }
  destruct (Py.startswith "Form factor:" (Py.strip line)) eqn:H2.
  { right. split; [done|].
    destruct (proj1 (startswith_spec _ _) H2) as [rest Hr].
    exists "Form factor:", "form_factor", rest.
    split; [right; left|]. split; [done|]. by rewrite Hr. }
  destruct (Py.startswith "Device type:" (Py.strip line)) eqn:H3.
  { right. split; [done|].
    destruct (proj1 (startswith_spec _ _) H3) as [rest Hr].
    exists "Device type:", "device_type", rest.
    split; [right; right; left|]. split; [done|]. by rewrite Hr. }
  left. done.
Qed.

Lemma well_formed_initial : well_formed_info initial_info.
Proof.
  split.
  - unfold initial_info. rewrite !dom_insert_L, dom_empty_L. set_solver.
  - intros key v. unfold initial_info.
    rewrite !lookup_insert_Some, lookup_empty.
    intros [[_ <-]|[_ [[_ <-]|[_ [[_ <-]|[_ ?]]]]]]; try done; eauto.
Qed.

Lemma well_formed_parse_line (info info' : dict) (line : string) :
  well_formed_info info -> parse_line info line = Ok info' ->
  well_formed_info info'.
Proof.
  intros [Hdom Hval] Hparse.
  destruct (parse_line_cases info line)
    as [[_ H]|(_ & label & key & rest & Hin & _ & H)];
    rewrite H in Hparse; injection Hparse as <-; [by split|].
  split.
  - rewrite dom_insert_L, Hdom. unfold labels in Hin.
    rewrite !elem_of_cons, elem_of_nil in Hin.
    destruct Hin as [[= -> ->]|[[= -> ->]|[[= -> ->]|[]]]]; set_solver.
  - intros k v. rewrite lookup_insert_Some.
    intros [[_ <-]|[_ Hk]]; [|by eapply Hval].
    eexists. split; [reflexivity|apply strip_idem].
Qed.

Lemma well_formed_parse_lines (lines : list string) (info info' : dict) :
  well_formed_info info -> parse_lines lines info = Ok info' ->
  well_formed_info info'.
Proof.
  revert info. induction lines as [|l lines IH]; intros info Hwf; simpl.
  - by intros [= <-].
  - destruct (parse_line info l) as [i1|] eqn:H1; [|done]. simpl.
    apply IH. by eapply well_formed_parse_line.
Qed.

Lemma parse_lines_unlabelled (lines : list string) (info : dict) :
  Forall (fun l => labelled l = false) lines ->
  parse_lines lines info = Ok info.
Proof.
  induction 1 as [|l lines Hl _ IH]; simpl; [done|].
  destruct (parse_line_cases info l) as [[_ ->]|[Hlab _]]; [exact IH|congruence].
Qed.

(** X1: whatever the text, the parsed record has exactly the keys
    [version], [form_factor] and [device_type], and each of them holds a
    string without leading or trailing whitespace. *)
Theorem parse_yubikey_info_shape (text : string) (info : dict) :
  parse_yubikey_info text = Ok info ->
  dom info = ({["version"; "form_factor"; "device_type"]} : gset string)
  /\ forall key v, info !! key = Some v ->
       exists s, v = VStr s /\ Py.strip s = s.
Proof.
  intros H. by apply (well_formed_parse_lines _ _ _ well_formed_initial H).
Qed.

Lemma parse_yubikey_info_shape_witness :
  dom (<["version" := VStr "5.4.3"]>
         (<["form_factor" := VStr "USB-A Keychain"]>
            (<["device_type" := VStr "YubiKey 5"]> (∅ : dict))))
  = ({["version"; "form_factor"; "device_type"]} : gset string).
Proof.
  apply (parse_yubikey_info_shape sample_info). vm_compute. reflexivity.
Defined.

(** X2: a text none of whose lines is labelled, the empty text in
    particular, parses to the defaults: version and form factor
    [Unknown], device type [YubiKey]. *)
Theorem parse_yubikey_info_defaults (text : string) :
  Forall (fun l => labelled l = false) (Py.split Py.LF text) ->
  parse_yubikey_info text = Ok initial_info.
Proof. apply parse_lines_unlabelled. Qed.

Lemma parse_yubikey_info_defaults_witness :
  parse_yubikey_info EmptyString = Ok initial_info
  /\ parse_yubikey_info (text_of_lines ["WARNING"; "firmware version: 5"])
     = Ok initial_info.
Proof.
  split; apply parse_yubikey_info_defaults; repeat constructor.
Defined.

(** X3: parsing is a left-to-right fold over the lines: the text
    [a], a line feed, then [b] parses as [b]'s lines applied to the
    result of parsing [a], so the fields set by [b] override those set
    by [a] and the others are kept. *)
Theorem parse_yubikey_info_concat (a b : string) :
  parse_yubikey_info (a +:+ String Py.LF b)
  = bind_result (parse_yubikey_info a) (parse_lines (Py.split Py.LF b)).
Proof.
  unfold parse_yubikey_info. by rewrite split_app, parse_lines_app.
Qed.

End ParserShape.

(** ** The external command and the enumeration *)

Section Command.

(** X4: [run_ykman_command] succeeds exactly when the process completes
    with return code 0, and then returns its standard output stripped,
    a text that stripping leaves unchanged. The messages of the three
    failures (no binary, timeout, non-zero exit) are pairwise different,
    whatever the process wrote to its standard error. *)
Theorem run_ykman_command_contract (e : env) (args : list string) :
  (forall out, run_ykman_command e args = Ok out <->
     exists stdout stderr,
       subprocess_run e ("ykman" :: args) = CompletedProcess 0 stdout stderr
       /\ out = Py.strip stdout)
  /\ (forall out, run_ykman_command e args = Ok out -> Py.strip out = out)
  /\ (forall rc stdout stderr,
        subprocess_run e ("ykman" :: args) = CompletedProcess rc stdout stderr ->
        rc <> 0 ->
        run_ykman_command e args = Raise ("ykman error: " +:+ Py.strip stderr)
        /\ run_ykman_command e args <> Raise "ykman command timed out"
        /\ run_ykman_command e args
           <> Raise "ykman command not found. Please install yubikey-manager.").
Proof.
  unfold run_ykman_command.
  destruct (subprocess_run e ("ykman" :: args)) as [rc so se| | |m] eqn:Hrun.
  - destruct (Z.eqb_spec rc 0) as [->|Hrc].
    + split; [|split].
      * intros out. split.
        -- intros [= <-]. eauto.
        -- intros (so' & se' & [= <- <-] & ->). reflexivity.
      * intros out [= <-]. apply strip_idem.
      * intros rc' so' se' [= <- <- <-] Hne. done.
    + split; [|split].
      * intros out. split; [done|].
        intros (so' & se' & [= -> <- <-] & _). done.
      * done.
      * intros rc' so' se' [= <- <- <-] _. repeat split; discriminate.
  - split; [|split]; try done.
    intros out. split; [done|]. by intros (? & ? & ? & _).
  - split; [|split]; try done.
    intros out. split; [done|]. by intros (? & ? & ? & _).
  - split; [|split]; try done.
    intros out. split; [done|]. by intros (? & ? & ? & _).
Qed.

Lemma run_ykman_command_contract_witness :
  run_ykman_command world_7_mute ["--device"; "7"; "info"]
  = Raise "ykman error: Failed connecting"
  /\ Py.strip "7" = "7".
Proof.
  destruct (run_ykman_command_contract world_7_mute ["--device"; "7"; "info"])
    as (_ & _ & Hfail).
  destruct (run_ykman_command_contract world_7 ["list"; "--serials"])
    as (_ & Hstrip & _).
  split.
  - apply (Hfail 1 "" "Failed connecting"); [reflexivity | lia].
  - apply Hstrip. reflexivity.
Defined.








End Command.

(** ** More on the persistence gateway *)

Section Store.

Lemma query_first_serial (v : value) (rows : list YubiKey.t) (ex : YubiKey.t) :
  query_first v rows = Some ex -> YubiKey.serial ex = v /\ ex ∈ rows.
Proof.
  unfold query_first. intros H. apply find_some in H as [Hin Hb].
  apply bool_decide_eq_true in Hb. split; [done|]. by apply list_elem_of_In.
Qed.

Lemma query_first_absent (v : value) (rows : list YubiKey.t) :
  query_first v rows = None -> v ∉ YubiKey.serial <$> rows.
Proof.
  unfold query_first. intros H Hin.
  apply list_elem_of_fmap in Hin as (r & -> & Hr).
  apply list_elem_of_In in Hr.
  pose proof (find_none _ _ H r Hr) as Hb. simpl in Hb.
  by apply bool_decide_eq_false in Hb.
Qed.

Lemma update_first_length (v : value) (new : YubiKey.t) (rows : list YubiKey.t) :
  length (update_first v new rows) = length rows.
Proof.
  induction rows as [|r rows IH]; simpl; [done|].
  case_bool_decide; simpl; by rewrite ?IH.
Qed.

Lemma update_first_serials (v : value) (new : YubiKey.t) (rows : list YubiKey.t) :
  YubiKey.serial new = v ->
  YubiKey.serial <$> update_first v new rows = YubiKey.serial <$> rows.
Proof.
  intros Hnew. induction rows as [|r rows IH]; simpl; [done|].
  case_bool_decide as Hr; rewrite !fmap_cons; [by rewrite Hnew, Hr|by rewrite IH].
Qed.

(** Every row survives an update, with its serial and [first_seen]. *)
Lemma update_first_keeps (v : value) (new ex r : YubiKey.t)
    (rows : list YubiKey.t) :
  query_first v rows = Some ex ->
  YubiKey.serial new = YubiKey.serial ex ->
  YubiKey.first_seen new = YubiKey.first_seen ex ->
  r ∈ rows ->
  exists r', r' ∈ update_first v new rows
             /\ YubiKey.serial r' = YubiKey.serial r
             /\ YubiKey.first_seen r' = YubiKey.first_seen r.
Proof.
  intros Hq Hs Hf. unfold query_first in Hq.
  induction rows as [|x rows IH]; intros Hin; [by apply elem_of_nil in Hin|].
  simpl in *. destruct (bool_decide (YubiKey.serial x = v)) eqn:Hx.
  - injection Hq as <-. apply elem_of_cons in Hin as [->|Hin].
    + exists new. split; [left|done].
    + exists r. split; [by right|done].
  - apply elem_of_cons in Hin as [->|Hin].
    + exists x. split; [left|done].
    + destruct (IH Hq Hin) as (r' & Hr' & ?). exists r'. split; [by right|done].
Qed.

(** What a save does to the two tables, case by case. *)
Lemma save_cases (w : db_world) (info : dict) (raw : string) (d : database) :
  (exists err,
     save_yubikey_to_db w info raw d = (Raise err, d)
     /\ (info !! "serial" = None \/ db_error w = Some err))
  \/ (exists serial row,
        info !! "serial" = Some serial
        /\ db_error w = None
        /\ YubiKey.serial row = serial
        /\ YubiKey.last_seen row = db_now w
        /\ save_yubikey_to_db w info raw d
           = (Ok row,
              Database
                match query_first serial (yubikeys_table d) with
                | Some _ => update_first serial row (yubikeys_table d)
                | None => yubikeys_table d ++ [row]
                end
                (detections_table d
                 ++ [YubiKeyDetection.Build serial (db_now w) info]))
        /\ match query_first serial (yubikeys_table d) with
           | Some ex => YubiKey.first_seen row = YubiKey.first_seen ex
           | None => YubiKey.first_seen row = db_now w
           end).
Proof.
  unfold save_yubikey_to_db, save_transaction, getitem.
  destruct (info !! "serial") as [serial|] eqn:Hs; simpl; [|left; eauto].
  destruct (db_error w) as [err|] eqn:He.
  { left. exists err. destruct (query_first serial (yubikeys_table d)); eauto. }
  right. destruct (query_first serial (yubikeys_table d)) as [ex|] eqn:Hq.
  - destruct (query_first_serial _ _ _ Hq) as [Hex _].
    exists serial,
      (YubiKey.Build
         (YubiKey.serial ex)
         (get info "version" (VStr "Unknown"))
         (get info "form_factor" (VStr "Unknown"))
         (get info "device_type" (VStr "YubiKey"))
         (get info "is_fips" (VBool false))
         (get info "is_sky" (VBool false))
         (YubiKey.first_seen ex) (db_now w) raw).
    rewrite Hq. simpl. repeat split; done || exact Hex.
  - exists serial,
      (YubiKey.Build
         serial
         (get info "version" (VStr "Unknown"))
         (get info "form_factor" (VStr "Unknown"))
         (get info "device_type" (VStr "YubiKey"))
         (get info "is_fips" (VBool false))
         (get info "is_sky" (VBool false))
         (db_now w) (db_now w) raw).
    rewrite Hq. simpl. by repeat split.
Qed.

(** X7: a save fails exactly when the record has no [serial] key or the
    store raises; the exception is passed on and the database is left
    as it was before the call (the transaction is rolled back). *)
Theorem failed_save_rolls_back
    (w : db_world) (info : dict) (raw : string) (d : database) :
  (forall err d', save_yubikey_to_db w info raw d = (Raise err, d') ->
     d' = d /\ (info !! "serial" = None \/ db_error w = Some err))
  /\ (info !! "serial" = None ->
      save_yubikey_to_db w info raw d = (Raise "'serial'", d))
  /\ (forall err, is_Some (info !! "serial") -> db_error w = Some err ->
        save_yubikey_to_db w info raw d = (Raise err, d)).
Proof.
  split; [|split].
  - intros err d' H.
    destruct (save_cases w info raw d)
      as [(err' & Hs & Hwhy)|(serial & row & _ & _ & _ & _ & Hs & _)];
      rewrite Hs in H; [|done].
    injection H as <- <-. done.
  - intros Hnone. unfold save_yubikey_to_db, save_transaction, getitem.
    by rewrite Hnone.
  - intros err [serial Hs] He.
    unfold save_yubikey_to_db, save_transaction, getitem. rewrite Hs. simpl.
    rewrite He. by destruct (query_first serial (yubikeys_table d)).
Qed.

Lemma failed_save_rolls_back_witness :
  save_yubikey_to_db (DbWorld 100 None) initial_info "raw" empty_database
  = (Raise "'serial'", empty_database)
  /\ save_yubikey_to_db (DbWorld 100 (Some "connection refused"))
       (reading "5.4.3") "raw" empty_database
     = (Raise "connection refused", empty_database).
Proof.
  destruct (failed_save_rolls_back (DbWorld 100 None) initial_info "raw"
              empty_database) as (_ & H2 & _).
  destruct (failed_save_rolls_back (DbWorld 100 (Some "connection refused"))
              (reading "5.4.3") "raw" empty_database) as (_ & _ & H3).
  split.
  - apply H2. reflexivity.
  - apply H3; [vm_compute; eauto | reflexivity].
Defined.

(** X8: a save touches one device only. The rows of every other serial
    are unchanged, the [yubikeys] table keeps its rows or gains one,
    and the detections already recorded stay in place, at most one
    being appended. *)
Theorem save_touches_one_device
    (w : db_world) (info : dict) (raw : string) (d : database) :
  let d' := snd (save_yubikey_to_db w info raw d) in
  (forall v, info !! "serial" <> Some v ->
     rows_of v (yubikeys_table d') = rows_of v (yubikeys_table d))
  /\ (length (yubikeys_table d) <= length (yubikeys_table d')
      <= S (length (yubikeys_table d)))%nat
  /\ exists new, detections_table d' = detections_table d ++ new
                 /\ (length new <= 1)%nat.
Proof.
  destruct (save_cases w info raw d)
    as [(err & Hs & _)|(serial & row & Hser & _ & Hrow & _ & Hs & _)];
    rewrite Hs; simpl.
  - split; [done|]. split; [lia|]. exists [].
    split; [by rewrite app_nil_r | simpl; lia].
  - split; [|split].
    + intros v Hv. assert (v <> serial) as Hne by congruence.
      destruct (query_first serial (yubikeys_table d)).
      * by apply rows_of_update_first_other.
      * rewrite rows_of_app. unfold rows_of at 2.
        rewrite filter_cons_False, filter_nil, app_nil_r by congruence. done.
    + destruct (query_first serial (yubikeys_table d)).
      * rewrite update_first_length. lia.
      * rewrite length_app. simpl. lia.
    + eexists. split; [reflexivity|]. simpl. lia.
Qed.

Lemma save_keeps_unique (w : db_world) (info : dict) (raw : string)
    (d : database) :
  NoDup (serial_column d) ->
  NoDup (serial_column (snd (save_yubikey_to_db w info raw d))).
Proof.
  intros Hnd. unfold serial_column in *.
  destruct (save_cases w info raw d)
    as [(err & Hs & _)|(serial & row & Hser & _ & Hrow & _ & Hs & _)];
    rewrite Hs; simpl; [done|].
  destruct (query_first serial (yubikeys_table d)) eqn:Hq.
  - by rewrite update_first_serials.
  - rewrite fmap_app. simpl. apply NoDup_app. split; [done|].
    split; [|apply NoDup_singleton].
    intros v Hv Hin. apply list_elem_of_singleton in Hin as ->.
    rewrite Hrow in Hv. by apply query_first_absent in Hq.
Qed.

(** X9: the serial column of table [yubikeys] stays free of duplicates
    under any sequence of saves, successful or not: a device never gets
    a second row. *)
Theorem saves_keep_serials_unique
    (calls : list (db_world * dict * string)) (d : database) :
  NoDup (serial_column d) -> NoDup (serial_column (save_all calls d)).
Proof.
  revert d. induction calls as [|[[w info] raw] calls IH]; intros d Hnd; simpl;
    [done|].
  apply IH. by apply save_keeps_unique.
Qed.

Lemma saves_keep_serials_unique_witness :
  NoDup (serial_column
           (save_all [(DbWorld 100 None, reading "5.4.3", "a");
                      (DbWorld 150 (Some "down"), reading "5.5.0", "b");
                      (DbWorld 200 None, reading "5.7.1", "c")]
                     empty_database)).
Proof.
  apply saves_keep_serials_unique. apply NoDup_nil_2.
Defined.

Lemma save_keeps_rows (w : db_world) (info : dict) (raw : string)
    (d : database) (r : YubiKey.t) :
  r ∈ yubikeys_table d ->
  exists r', r' ∈ yubikeys_table (snd (save_yubikey_to_db w info raw d))
             /\ YubiKey.serial r' = YubiKey.serial r
             /\ YubiKey.first_seen r' = YubiKey.first_seen r.
Proof.
  intros Hin.
  destruct (save_cases w info raw d)
    as [(err & Hs & _)|(serial & row & Hser & _ & Hrow & _ & Hs & Hfirst)];
    rewrite Hs; simpl; [eauto|].
  destruct (query_first serial (yubikeys_table d)) as [ex|] eqn:Hq.
  - eapply update_first_keeps; eauto.
    destruct (query_first_serial _ _ _ Hq) as [-> _]. done.
  - exists r. split; [|done]. apply elem_of_app. by left.
Qed.

(** X10: no sequence of saves deletes a device or a detection: every
    row of table [yubikeys] is still there afterwards with the same
    serial and the same [first_seen], and the detection rows recorded
    before are still the first rows of table [yubikey_detections]. *)
Theorem saves_never_delete
    (calls : list (db_world * dict * string)) (d : database) :
  (forall r, r ∈ yubikeys_table d ->
     exists r', r' ∈ yubikeys_table (save_all calls d)
                /\ YubiKey.serial r' = YubiKey.serial r
                /\ YubiKey.first_seen r' = YubiKey.first_seen r)
  /\ exists new,
       detections_table (save_all calls d) = detections_table d ++ new.
Proof.
  revert d. induction calls as [|[[w info] raw] calls IH]; intros d; simpl.
  - split; [eauto|]. exists []. by rewrite app_nil_r.
  - destruct (IH (snd (save_yubikey_to_db w info raw d))) as [Hrows [new Hnew]].
    split.
    + intros r Hr.
      destruct (save_keeps_rows w info raw d r Hr) as (r1 & Hr1 & Hs1 & Hf1).
      destruct (Hrows r1 Hr1) as (r' & Hr' & Hs' & Hf').
      exists r'. split; [done|]. split; congruence.
    + destruct (save_cases w info raw d)
        as [(err & Hs & _)|(serial & row & _ & _ & _ & _ & Hs & _)];
        rewrite Hs in Hnew |- *; simpl in Hnew |- *; rewrite Hnew.
      * eauto.
      * rewrite <- app_assoc. eauto.
Qed.

Lemma stats_recent_le_total (now : Z) (d : database) :
  (recent_detections_24h (database_stats now d)
   <= total_detections (database_stats now d))%nat.
Proof. simpl. apply length_filter. Qed.



End Store.

(** ** More on the monitor loop *)

Section MonitorHistory.

Lemma read_info_serial (e : env) (x : Z) (info : dict) (out : string) :
  read_info e x = Ok (info, out) -> info !! "serial" = Some (VInt x).
Proof.
  unfold read_info.
  destruct (run_ykman_command e ["--device"; Py.str x; "info"]); [|done].
  simpl. destruct (parse_yubikey_info a); [|done]. simpl.
  intros [= <- _]. apply tag_info_serial.
Qed.

(** What one turn of the inner loop does to the database. *)
Lemma probe_db_step (e : env) (x : Z) (d : database) :
  (NoDup (serial_column d) -> NoDup (serial_column (probe_db e x d)))
  /\ (forall r, r ∈ yubikeys_table d ->
        exists r', r' ∈ yubikeys_table (probe_db e x d)
                   /\ YubiKey.serial r' = YubiKey.serial r
                   /\ YubiKey.first_seen r' = YubiKey.first_seen r)
  /\ (forall v, v <> VInt x ->
        rows_of v (yubikeys_table (probe_db e x d)) = rows_of v (yubikeys_table d))
  /\ exists new,
       detections_table (probe_db e x d) = detections_table d ++ new
       /\ Forall (fun r => YubiKeyDetection.serial r = VInt x) new
       /\ (length new <= 1)%nat.
Proof.
  unfold probe_db. destruct (read_info e x) as [[info out]|msg] eqn:Hread.
  - pose proof (read_info_serial e x info out Hread) as Hser.
    split; [apply save_keeps_unique|]. split; [apply save_keeps_rows|].
    destruct (save_cases (db_at e info out) info out d)
      as [(err & Hs & _)|(serial & row & Hser' & _ & Hrow & _ & Hs & _)];
      rewrite Hs; simpl.
    + split; [done|]. exists []. rewrite app_nil_r. by repeat constructor.
    + assert (serial = VInt x) as -> by congruence. split.
      * intros v Hv. destruct (query_first (VInt x) (yubikeys_table d)).
        -- by apply rows_of_update_first_other.
        -- rewrite rows_of_app. unfold rows_of at 2.
           rewrite filter_cons_False, filter_nil, app_nil_r by congruence. done.
      * eexists. split; [reflexivity|]. split; [by repeat constructor|simpl; lia].
  - split; [done|]. split; [eauto|]. split; [done|].
    exists []. rewrite app_nil_r. by repeat constructor.
Qed.

Lemma fold_probe_db_step (e : env) (l : list Z) (d : database) :
  let d' := fold_left (fun d x => probe_db e x d) l d in
  (NoDup (serial_column d) -> NoDup (serial_column d'))
  /\ (forall r, r ∈ yubikeys_table d ->
        exists r', r' ∈ yubikeys_table d'
                   /\ YubiKey.serial r' = YubiKey.serial r
                   /\ YubiKey.first_seen r' = YubiKey.first_seen r)
  /\ (forall v, (forall x, x ∈ l -> v <> VInt x) ->
        rows_of v (yubikeys_table d') = rows_of v (yubikeys_table d))
  /\ exists new,
       detections_table d' = detections_table d ++ new
       /\ Forall (fun r => exists x, x ∈ l /\ YubiKeyDetection.serial r = VInt x) new
       /\ (length new <= length l)%nat.
Proof.
  revert d. induction l as [|x l IH]; intros d; simpl.
  - split; [done|]. split; [eauto|]. split; [done|].
    exists []. rewrite app_nil_r. by repeat constructor.
  - destruct (probe_db_step e x d) as (Hu1 & Hk1 & Hf1 & new1 & Hd1 & Hall1 & Hl1).
    destruct (IH (probe_db e x d)) as (Hu2 & Hk2 & Hf2 & new2 & Hd2 & Hall2 & Hl2).
    split; [auto|]. split; [|split].
    + intros r Hr. destruct (Hk1 r Hr) as (r1 & Hr1 & Hs1 & Hfs1).
      destruct (Hk2 r1 Hr1) as (r2 & Hr2 & Hs2 & Hfs2).
      exists r2. split; [done|]. split; congruence.
    + intros v Hv. rewrite Hf2, Hf1; [done| |].
      * apply Hv. left.
      * intros y Hy. apply Hv. by right.
    + exists (new1 ++ new2). rewrite Hd2, Hd1, <- app_assoc.
      split; [done|]. split.
      * apply Forall_app. split.
        -- eapply Forall_impl; [exact Hall1|]. intros r Hr. exists x.
           split; [left|done].
        -- eapply Forall_impl; [exact Hall2|]. intros r (y & Hy & Hr).
           exists y. split; [by right|done].
      * rewrite length_app. lia.
Qed.

(** The three ways a loop turn can go. *)
Lemma monitor_iteration_cases (e : env) (prev : gset Z) (s : store) :
  monitor_iteration e prev s = (prev, s)
  \/ exists cur, enumerate e = Ok cur /\ cur <> prev
       /\ monitor_iteration e prev s
          = (cur,
             Store (fold_left (fun d x => probe_db e x d) (elements cur) (db s))
                   (emitted s
                    ++ [Event "yubikeys_update"
                          (flat_map (probe_entries e) (elements cur))])
                   (flat_map (probe_entries e) (elements cur))).
Proof.
  destruct (enumerate e) as [cur|msg] eqn:He.
  - destruct (decide (cur = prev)) as [->|Hne].
    + left. by apply monitor_iteration_idle.
    + right. exists cur. split; [done|]. split; [done|].
      by apply monitor_iteration_changed.
  - left. by apply (monitor_iteration_failed e prev s msg).
Qed.

(** X12: whatever the worlds of its turns, the loop only ever appends:
    the messages sent and the detection rows recorded before a run are
    still there after it, in place; every device row is still there
    with its serial and [first_seen]; the serial column stays free of
    duplicates; and a run of n turns sends at most n messages, all
    named [yubikeys_update]. *)
Theorem monitor_run_appends (es : list env) (prev : gset Z) (s : store) :
  let s' := snd (monitor_run es prev s) in
  (exists events,
     emitted s' = emitted s ++ events
     /\ Forall (fun ev => event_name ev = "yubikeys_update") events
     /\ (length events <= length es)%nat)
  /\ (exists new, detections_table (db s') = detections_table (db s) ++ new)
  /\ (forall r, r ∈ yubikeys_table (db s) ->
        exists r', r' ∈ yubikeys_table (db s')
                   /\ YubiKey.serial r' = YubiKey.serial r
                   /\ YubiKey.first_seen r' = YubiKey.first_seen r)
  /\ (NoDup (serial_column (db s)) -> NoDup (serial_column (db s'))).
Proof.
  revert prev s. induction es as [|e es IH]; intros prev s; simpl.
  - split; [exists []; rewrite app_nil_r; by repeat constructor|].
    split; [exists []; by rewrite app_nil_r|]. split; [eauto|done].
  - destruct (monitor_iteration_cases e prev s) as [->|(cur & _ & _ & ->)].
    + destruct (IH prev s) as ((evs & He & Hn & Hl) & Hd & Hk & Hu).
      split; [|done]. exists evs. split; [done|]. split; [done|lia].
    + match goal with |- context [monitor_run es cur ?s1] =>
        destruct (IH cur s1) as ((evs & He & Hn & Hl) & (new & Hd) & Hk & Hu)
      end.
      simpl in He, Hd, Hk, Hu.
      destruct (fold_probe_db_step e (elements cur) (db s))
        as (Hu1 & Hk1 & _ & new1 & Hd1 & _ & _).
      split; [|split; [|split]].
      * eexists. rewrite He, <- app_assoc. split; [reflexivity|].
        split; [by constructor|simpl; lia].
      * exists (new1 ++ new). by rewrite Hd, Hd1, <- app_assoc.
      * intros r Hr. destruct (Hk1 r Hr) as (r1 & Hr1 & Hs1 & Hf1).
        destruct (Hk r1 Hr1) as (r2 & Hr2 & Hs2 & Hf2).
        exists r2. split; [done|]. split; congruence.
      * auto.
Qed.







End MonitorHistory.

(** ** The request handlers *)

Section Requests.

Lemma new_row_in_table (v : value) (new ex : YubiKey.t) (rows : list YubiKey.t) :
  query_first v rows = Some ex -> new ∈ update_first v new rows.
Proof.
  unfold query_first. induction rows as [|r rows IH]; simpl; [done|].
  destruct (bool_decide (YubiKey.serial r = v)); [left|].
  intros H. right. by apply IH.
Qed.

(** One turn of the loop of [list_yubikeys] never raises and sends
    nothing; without [auto_save] it appends one entry and leaves the
    database alone. *)
Lemma list_one_spec (e : env) (auto_save : bool) (x : Z) (s : store) :
  exists s',
    list_one e auto_save x s = (Ok tt, s')
    /\ emitted s' = emitted s
    /\ (auto_save = false ->
        db s' = db s
        /\ exists entry, yubikeys s' = yubikeys s ++ [entry]
                         /\ has_serial x entry).
Proof.
  unfold list_one, try_except, bind, lift.
  destruct (run_ykman_command e ["--device"; Py.str x; "info"]) as [out|msg];
    simpl.
  - destruct (parse_yubikey_info out) as [info|msg]; simpl.
    + destruct auto_save; simpl.
      * unfold save. simpl.
        destruct (save_yubikey_to_db _ (tag_info info x out) out (db s))
          as [[row|err] d1]; simpl.
        -- eexists. split; [reflexivity|]. split; [reflexivity|done].
        -- unfold save. simpl.
           destruct (save_yubikey_to_db _ (basic_info x) err d1)
             as [[row|err'] d2]; simpl;
             (eexists; split; [reflexivity|]; split; [reflexivity|done]).
      * eexists. split; [reflexivity|]. split; [reflexivity|]. intros _.
        split; [reflexivity|]. eexists. split; [reflexivity|].
        apply tag_info_serial.
    + destruct auto_save; simpl.
      * unfold save. simpl.
        destruct (save_yubikey_to_db _ (basic_info x) msg (db s))
          as [[row|err'] d2]; simpl;
          (eexists; split; [reflexivity|]; split; [reflexivity|done]).
      * eexists. split; [reflexivity|]. split; [reflexivity|]. intros _.
        split; [reflexivity|]. eexists. split; [reflexivity|].
        apply fallback_info_serial.
  - destruct auto_save; simpl.
    + unfold save. simpl.
      destruct (save_yubikey_to_db _ (basic_info x) msg (db s))
        as [[row|err'] d2]; simpl;
        (eexists; split; [reflexivity|]; split; [reflexivity|done]).
    + eexists. split; [reflexivity|]. split; [reflexivity|]. intros _.
      split; [reflexivity|]. eexists. split; [reflexivity|].
      apply fallback_info_serial.
Qed.

Lemma for_each_list_one (e : env) (auto_save : bool) (l : list Z) (s : store) :
  exists s',
    for_each l (list_one e auto_save) s = (Ok tt, s')
    /\ emitted s' = emitted s
    /\ (auto_save = false ->
        db s' = db s
        /\ exists entries, yubikeys s' = yubikeys s ++ entries
                           /\ Forall2 has_serial l entries).
Proof.
  revert s. induction l as [|x l IH]; intros s; simpl.
  - exists s. split; [reflexivity|]. split; [reflexivity|]. intros _.
    split; [reflexivity|]. exists []. rewrite app_nil_r. by split.
  - unfold bind. destruct (list_one_spec e auto_save x s) as (s1 & -> & He1 & H1).
    destruct (IH s1) as (s2 & -> & He2 & H2).
    exists s2. split; [reflexivity|]. split; [congruence|]. intros Ha.
    destruct (H1 Ha) as (Hd1 & entry & Hy1 & Hs1).
    destruct (H2 Ha) as (Hd2 & entries & Hy2 & Hs2).
    split; [congruence|]. exists (entry :: entries).
    rewrite Hy2, Hy1, <- app_assoc. split; [reflexivity|by constructor].
Qed.

(** X15: [list_yubikeys] never lets an exception escape and never sends
    a message to the clients; the count it reports is the length of the
    list it returns; without [auto_save] it leaves the database as it
    was. It answers with an error exactly when the listing command
    fails or a line of the listing is not a number: the failure of a
    single device does not fail the request. *)
Theorem list_yubikeys_contract (e : env) (auto_save : bool) (s : store) :
  exists resp s',
    list_yubikeys e auto_save s = (Ok resp, s')
    /\ emitted s' = emitted s
    /\ (auto_save = false -> db s' = db s)
    /\ (forall ys n, resp = Success ys n -> n = length ys)
    /\ ((exists err, resp = Failure err) <->
        (exists err,
           bind_result (run_ykman_command e ["list"; "--serials"])
             (fun output =>
                serials_of (fun line => Py.int (Py.strip line))
                  (Py.split Py.LF output))
           = Raise err)).
Proof.
  unfold list_yubikeys, try_except, bind, lift.
  destruct (run_ykman_command e ["list"; "--serials"]) as [output|msg]; simpl.
  - destruct output as [|c t].
    + eexists _, _. split; [reflexivity|]. split; [reflexivity|].
      split; [done|]. split; [by intros ys n [= <- <-]|].
      split; [by intros [? ?]|]. intros [err Herr]. simpl in Herr. done.
    + destruct (serials_of _ (Py.split Py.LF (String c t))) as [serials|msg];
        simpl.
      * unfold yubikeys_reset.
        destruct (for_each_list_one e auto_save serials
                    (Store (db s) (emitted s) [])) as (s1 & -> & He & Hd).
        eexists _, _. split; [reflexivity|]. split; [exact He|].
        split; [intros Ha; by destruct (Hd Ha)|].
        split; [by intros ys n [= <- <-]|].
        split; [by intros [? ?]|by intros [? ?]].
      * eexists _, _. split; [reflexivity|]. split; [reflexivity|].
        split; [done|]. split; [done|]. split; eauto.
  - eexists _, _. split; [reflexivity|]. split; [reflexivity|].
    split; [done|]. split; [done|]. split; eauto.
Qed.

(** X16: without [auto_save], when the listing is read,
    [list_yubikeys] answers with exactly one entry per line of the
    listing that is not blank, in the order of the listing and with
    repeated serials repeated, each entry carrying the serial of its
    line. *)
Theorem list_yubikeys_one_entry_per_line
    (e : env) (s : store) (output : string) (serials : list Z) :
  run_ykman_command e ["list"; "--serials"] = Ok output ->
  output <> EmptyString ->
  serials_of (fun line => Py.int (Py.strip line)) (Py.split Py.LF output)
  = Ok serials ->
  exists ys s',
    list_yubikeys e false s = (Ok (Success ys (length serials)), s')
    /\ Forall2 has_serial serials ys.
Proof.
  intros Hrun Hne Hser. unfold list_yubikeys, try_except, bind, lift.
  rewrite Hrun. simpl. destruct output as [|c t]; [done|].
  rewrite Hser. simpl. unfold yubikeys_reset.
  destruct (for_each_list_one e false serials (Store (db s) (emitted s) []))
    as (s1 & -> & _ & Hd).
  destruct (Hd eq_refl) as (_ & entries & Hy & Hall). simpl in Hy.
  exists entries, s1. rewrite Hy. split; [|done].
  by rewrite (Forall2_length _ _ _ Hall).
Qed.

Lemma list_yubikeys_one_entry_per_line_witness :
  exists ys s',
    list_yubikeys
      (world (lines_out ["8"; " 7"; ""; "8"])
             (fun _ => CompletedProcess 0 sample_info "") store_up)
      false initial_store
    = (Ok (Success ys 3), s')
    /\ Forall2 has_serial [8; 7; 8] ys.
Proof.
  apply (list_yubikeys_one_entry_per_line _ initial_store
           (text_of_lines ["8"; " 7"; ""; "8"]) [8; 7; 8]).
  - vm_compute. reflexivity.
  - vm_compute. discriminate.
  - vm_compute. reflexivity.
Defined.

(** X17: [get_yubikey_info] never lets an exception escape, sends
    nothing and, without [auto_save], leaves the database as it was.
    The attributes it returns carry the requested serial. Any failure,
    a rejected write of [auto_save] included, is answered with the 404
    response and leaves the database unchanged. *)
Theorem get_yubikey_info_contract
    (e : env) (auto_save : bool) (serial : Z) (s : store) :
  exists resp s',
    get_yubikey_info e auto_save serial s = (Ok resp, s')
    /\ emitted s' = emitted s
    /\ yubikeys s' = yubikeys s
    /\ (auto_save = false -> db s' = db s)
    /\ (forall info, resp = InfoFound info ->
          has_serial serial info
          /\ exists out, read_info e serial = Ok (info, out))
    /\ (forall err, resp = InfoNotFound err -> db s' = db s)
    /\ (forall info out err,
          auto_save = true ->
          read_info e serial = Ok (info, out) ->
          db_error (db_at e info out) = Some err ->
          resp = InfoNotFound err).
Proof.
  unfold get_yubikey_info, read_info, try_except, bind, lift.
  destruct (run_ykman_command e ["--device"; Py.str serial; "info"])
    as [out|msg]; simpl.
  - destruct (parse_yubikey_info out) as [info|msg]; simpl.
    + destruct auto_save; simpl.
      * unfold save. simpl.
        destruct (save_cases (db_at e (tag_info info serial out) out)
                    (tag_info info serial out) out (db s))
          as [(err & Hs & Hwhy)|(v & row & Hv & Hok & _ & _ & Hs & _)];
          rewrite Hs; simpl.
        -- eexists _, _. split; [reflexivity|]. split_and!; try done.
           intros info' out' err' _ [= <- <-] Herr.
           destruct Hwhy as [Hnone|Herr'].
           ++ by rewrite tag_info_serial in Hnone.
           ++ congruence.
        -- eexists _, _. split; [reflexivity|]. split_and!; try done.
           ++ intros info' [= <-]. split; [apply tag_info_serial|eauto].
           ++ intros info' out' err' _ [= <- <-] Herr. congruence.
      * eexists _, _. split; [reflexivity|]. split_and!; try done.
        intros info' [= <-]. split; [apply tag_info_serial|eauto].
    + eexists _, _. split; [reflexivity|]. split_and!; done.
  - eexists _, _. split; [reflexivity|]. split_and!; done.
Qed.

(** X18: [save_yubikey] never lets an exception escape. When it answers
    with the saved record, that record carries the requested serial, is
    stamped with the time of the save, is a row of table [yubikeys],
    and one detection row has been appended; when it answers with an
    error, the database is as it was before the request. *)
Theorem save_yubikey_contract (e : env) (serial : Z) (s : store) :
  exists resp s',
    save_yubikey e serial s = (Ok resp, s')
    /\ emitted s' = emitted s
    /\ (forall message record, resp = Saved message record ->
          message = "YubiKey " +:+ Py.str serial +:+ " saved to database"
          /\ YubiKey.serial record = VInt serial
          /\ record ∈ yubikeys_table (db s')
          /\ exists info out,
               read_info e serial = Ok (info, out)
               /\ YubiKey.last_seen record = db_now (db_at e info out)
               /\ detections_table (db s')
                  = detections_table (db s)
                    ++ [YubiKeyDetection.Build (VInt serial)
                          (db_now (db_at e info out)) info])
    /\ (forall err, resp = NotSaved err -> db s' = db s).
Proof.
  unfold save_yubikey, read_info, try_except, bind, lift.
  destruct (run_ykman_command e ["--device"; Py.str serial; "info"])
    as [out|msg]; simpl.
  - destruct (parse_yubikey_info out) as [info|msg]; simpl.
    + unfold save. simpl.
      destruct (save_cases (db_at e (tag_info info serial out) out)
                  (tag_info info serial out) out (db s))
        as [(err & Hs & Hwhy)|(v & row & Hv & Hok & Hrow & Hlast & Hs & _)];
        rewrite Hs; simpl.
      * eexists _, _. split; [reflexivity|]. split_and!; done.
      * rewrite tag_info_serial in Hv. injection Hv as <-.
        eexists _, _. split; [reflexivity|]. split; [reflexivity|].
        split; [|done]. intros message record [= <- <-]. simpl.
        split; [done|]. split; [done|]. split.
        -- destruct (query_first (VInt serial) (yubikeys_table (db s))) eqn:Hq.
           ++ by eapply new_row_in_table.
           ++ apply elem_of_app. right. left.
        -- eexists _, _. split; [reflexivity|]. split; done.
    + eexists _, _. split; [reflexivity|]. split_and!; done.
  - eexists _, _. split; [reflexivity|]. split_and!; done.
Qed.

End Requests.

(** ** More on the connect and disconnect handlers *)

Section Concurrency.

Lemma reachable_invariant (σ : system) :
  reachable σ -> invariant σ /\ holder_ok σ.
Proof.
  intros [schedule Hrun]. split.
  - by apply (run_invariant schedule initial_system σ invariant_initial).
  - by apply (run_holder schedule initial_system σ invariant_initial
                holder_ok_initial).
Qed.

Lemma unreturned_has_rank (l : list pc) (i : nat) (p : pc) :
  l !! i = Some p -> returned p = false -> (0 < sum_list (rank <$> l))%nat.
Proof.
  revert i. induction l as [|q l IH]; intros [|i] Hi Hp; simplify_eq/=.
  - destruct p; simpl in *; done || lia.
  - specialize (IH i Hi Hp). lia.
Qed.

(** X19: mutual exclusion. In every state the process can reach, a
    handler that is inside its [with thread_lock] block holds the lock,
    and every other handler is outside its block: waiting for the lock
    or returned. *)
Theorem handlers_exclude_each_other (σ : system) (i : nat) (p : pc) :
  reachable σ ->
  handlers σ !! i = Some p ->
  critical p = true ->
  thread_lock σ = Some i
  /\ forall j q, j <> i -> handlers σ !! j = Some q -> critical q = false.
Proof.
  intros Hreach Hi Hp.
  destruct (reachable_invariant σ Hreach) as [[Hlock _ _ _ _ _] _].
  pose proof (Hlock i p Hi Hp) as Hheld. split; [exact Hheld|].
  intros j q Hne Hj. destruct (critical q) eqn:Hq; [|done].
  pose proof (Hlock j q Hj Hq) as Hheld'. congruence.
Qed.

Lemma handlers_exclude_each_other_witness :
  exists σ,
    run [Arrive Connect; Arrive Disconnect; Arrive Connect;
         Handler 1; Handler 1] initial_system = Some σ
    /\ thread_lock σ = Some 1%nat
    /\ handler_step 0 σ = None
    /\ handler_step 2 σ = None.
Proof.
  destruct (run [Arrive Connect; Arrive Disconnect; Arrive Connect;
                 Handler 1; Handler 1] initial_system) as [σ|] eqn:Hrun;
    [|vm_compute in Hrun; discriminate].
  assert (reachable σ) as Hreach by (eexists; exact Hrun).
  exists σ. split; [reflexivity|].
  vm_compute in Hrun. injection Hrun as <-.
  destruct (handlers_exclude_each_other _ 1 DisconnectPrint Hreach)
    as [Hlock _]; [reflexivity..|].
  split; [exact Hlock|]. split; reflexivity.
Defined.

(** X20: no deadlock. In every state the process can reach, as long as
    some handler has not returned, some handler can execute its next
    statement. *)
Theorem handlers_never_deadlock (σ : system) (i : nat) (p : pc) :
  reachable σ ->
  handlers σ !! i = Some p ->
  returned p = false ->
  exists j σ', step (Handler j) σ = Some σ'.
Proof.
  intros Hreach Hi Hp. destruct (reachable_invariant σ Hreach) as [Hinv Hh].
  apply (handlers_progress σ Hinv Hh). unfold remaining.
  by apply (unreturned_has_rank _ i p).
Qed.

Lemma handlers_never_deadlock_witness :
  exists σ j σ',
    run [Arrive Connect; Arrive Disconnect; Arrive Connect;
         Handler 1; Handler 1] initial_system = Some σ
    /\ step (Handler j) σ = Some σ'.
Proof.
  destruct (run [Arrive Connect; Arrive Disconnect; Arrive Connect;
                 Handler 1; Handler 1] initial_system) as [σ|] eqn:Hrun;
    [|vm_compute in Hrun; discriminate].
  assert (reachable σ) as Hreach by (eexists; exact Hrun).
  destruct (handlers_never_deadlock σ 0 ConnectAcquire Hreach)
    as (j & σ' & Hstep).
  - vm_compute in Hrun. injection Hrun as <-. reflexivity.
  - reflexivity.
  - exists σ, j, σ'. split; [reflexivity|exact Hstep].
Defined.

Lemma connects_complete_witness :
  exists (order : list nat) (σ : system),
    run (replicate 3 (Arrive Connect) ++ (Handler <$> order)) initial_system
    = Some σ
    /\ handlers σ = replicate 3 ConnectReturned
    /\ length (tasks σ) = 1%nat.
Proof. apply (connects_complete 3). lia. Defined.

Lemma total_contribution_insert (l : list pc) (i : nat) (p p' : pc) :
  l !! i = Some p ->
  total_contribution (<[i:=p']> l)
  = total_contribution l - contribution p + contribution p'.
Proof.
  revert i. induction l as [|q l IH]; intros [|i] Hi; simplify_eq/=.
  - lia.
  - rewrite (IH i Hi). lia.
Qed.

Lemma total_contribution_snoc (l : list pc) (p : pc) :
  total_contribution (l ++ [p]) = total_contribution l + contribution p.
Proof. induction l as [|q l IH]; simpl; [lia|]. rewrite IH. lia. Qed.

Lemma handler_step_count (i : nat) (σ σ' : system) :
  connected_clients σ = total_contribution (handlers σ) ->
  handler_step i σ = Some σ' ->
  connected_clients σ' = total_contribution (handlers σ').
Proof.
  intros Hc. unfold handler_step.
  destruct (handlers σ !! i) as [p|] eqn:Hp; [|done].
  destruct p; try done; repeat case_match; intros [= <-]; simpl;
    rewrite (total_contribution_insert _ _ _ _ Hp); simpl; lia.
Qed.

Lemma step_count (a : action) (σ σ' : system) :
  connected_clients σ = total_contribution (handlers σ) ->
  step a σ = Some σ' ->
  connected_clients σ' = total_contribution (handlers σ').
Proof.
  intros Hc. destruct a as [[]|i|j e]; simpl.
  - intros [= <-]. simpl. rewrite total_contribution_snoc. simpl. lia.
  - intros [= <-]. simpl. rewrite total_contribution_snoc. simpl. lia.
  - by apply handler_step_count.
  - unfold task_step. destruct (tasks σ !! j) as [prev|]; [|done].
    destruct (monitor_iteration e prev (shared σ)). by intros [= <-].
Qed.

Lemma run_count (schedule : list action) (σ σ' : system) :
  connected_clients σ = total_contribution (handlers σ) ->
  run schedule σ = Some σ' ->
  connected_clients σ' = total_contribution (handlers σ').
Proof.
  revert σ. induction schedule as [|a schedule IH]; intros σ Hc; simpl.
  - by intros [= <-].
  - destruct (step a σ) as [σ1|] eqn:Hstep; [|done].
    apply IH. by eapply step_count.
Qed.

Lemma returned_contribution (l : list pc) :
  Forall (fun p => returned p = true) l ->
  total_contribution l = count_kind Connect l - count_kind Disconnect l.
Proof.
  unfold count_kind. induction 1 as [|p l Hp _ IH]; [done|].
  simpl. rewrite IH, !filter_cons.
  destruct p; simpl in Hp; try discriminate;
    repeat case_decide; simplify_eq/=; lia.
Qed.

(** X21: no update of [connected_clients] is lost. In every state the
    process can reach, the counter is the number of handlers that have
    passed their increment minus the number that have passed their
    decrement; once all handlers have returned it is the number of
    connect events minus the number of disconnect events, which is
    negative when more clients left than came. *)
Theorem connected_clients_accounting (σ : system) :
  reachable σ ->
  connected_clients σ = total_contribution (handlers σ)
  /\ (Forall (fun p => returned p = true) (handlers σ) ->
      connected_clients σ
      = count_kind Connect (handlers σ) - count_kind Disconnect (handlers σ)).
Proof.
  intros [schedule Hrun].
  assert (connected_clients σ = total_contribution (handlers σ)) as Hc
    by (by apply (run_count schedule initial_system σ)).
  split; [exact Hc|]. intros Hall. rewrite Hc. by apply returned_contribution.
Qed.

Lemma connected_clients_accounting_witness :
  exists σ,
    run two_in_three_out initial_system = Some σ
    /\ connected_clients σ = -1
    /\ length (tasks σ) = 1%nat.
Proof.
  destruct (run two_in_three_out initial_system) as [σ|] eqn:Hrun;
    [|vm_compute in Hrun; discriminate].
  assert (reachable σ) as Hreach by (eexists; exact Hrun).
  destruct (connected_clients_accounting σ Hreach) as [_ Hdone].
  exists σ. split; [reflexivity|].
  vm_compute in Hrun. injection Hrun as <-.
  split; [|reflexivity]. rewrite Hdone; [reflexivity|].
  repeat constructor.
Defined.

End Concurrency.

(** ** Sample runs of the further properties *)

Section Samples.

Lemma save_touches_one_device_witness :
  rows_of (VInt 12345678)
    (yubikeys_table
       (snd (save_yubikey_to_db (DbWorld 200 None) (fallback_info 7) "x"
               (snd (save_yubikey_to_db (DbWorld 100 None) (reading "5.4.3")
                       "a" empty_database)))))
  = rows_of (VInt 12345678)
      (yubikeys_table
         (snd (save_yubikey_to_db (DbWorld 100 None) (reading "5.4.3")
                 "a" empty_database))).
Proof.
  destruct (save_touches_one_device (DbWorld 200 None) (fallback_info 7) "x"
              (snd (save_yubikey_to_db (DbWorld 100 None) (reading "5.4.3")
                      "a" empty_database))) as [H _].
  apply H. vm_compute. discriminate.
Defined.

Lemma saves_never_delete_witness :
  exists r',
    r' ∈ yubikeys_table
           (save_all [(DbWorld 150 (Some "down"), reading "5.5.0", "b");
                      (DbWorld 200 None, reading "5.7.1", "c");
                      (DbWorld 300 None, fallback_info 7, "d")]
              (snd (save_yubikey_to_db (DbWorld 100 None) (reading "5.4.3")
                      "a" empty_database)))
    /\ YubiKey.serial r' = VInt 12345678
    /\ YubiKey.first_seen r' = 100.
Proof.
  destruct (saves_never_delete
              [(DbWorld 150 (Some "down"), reading "5.5.0", "b");
               (DbWorld 200 None, reading "5.7.1", "c");
               (DbWorld 300 None, fallback_info 7, "d")]
              (snd (save_yubikey_to_db (DbWorld 100 None) (reading "5.4.3")
                      "a" empty_database))) as [H _].
  apply (H (YubiKey.Build (VInt 12345678) (VStr "5.4.3") (VStr "Unknown")
              (VStr "YubiKey") (VBool false) (VBool false) 100 100 "a")).
  vm_compute. left.
Defined.

Lemma monitor_run_appends_witness :
  NoDup (serial_column
           (db (snd (monitor_run [world_7_8; world_no_ykman; world_7; world_7_8]
                       ∅ initial_store)))).
Proof.
  destruct (monitor_run_appends [world_7_8; world_no_ykman; world_7; world_7_8]
              ∅ initial_store) as (_ & _ & _ & H).
  apply H. apply NoDup_nil_2.
Defined.

Lemma list_yubikeys_contract_witness :
  exists resp s',
    list_yubikeys world_7_mute false initial_store = (Ok resp, s')
    /\ db s' = db initial_store.
Proof.
  destruct (list_yubikeys_contract world_7_mute false initial_store)
    as (resp & s' & Hrun & _ & Hdb & _).
  exists resp, s'. split; [exact Hrun|]. apply Hdb. reflexivity.
Defined.

Lemma get_yubikey_info_contract_witness :
  exists s',
    get_yubikey_info world_7_store_down true 7 initial_store
    = (Ok (InfoNotFound "connection refused"), s').
Proof.
  destruct (get_yubikey_info_contract world_7_store_down true 7 initial_store)
    as (resp & s' & Hrun & _ & _ & _ & _ & _ & Hdown).
  exists s'. rewrite Hrun. f_equal. f_equal.
  eapply Hdown; [reflexivity | vm_compute; reflexivity | reflexivity].
Defined.

Lemma save_yubikey_contract_witness :
  exists message record s',
    save_yubikey world_7 7 initial_store = (Ok (Saved message record), s')
    /\ record ∈ yubikeys_table (db s')
    /\ YubiKey.serial record = VInt 7.
Proof.
  destruct (save_yubikey_contract world_7 7 initial_store)
    as (resp & s' & Hrun & _ & Hsaved & _).
  destruct resp as [message record|err];
    [|vm_compute in Hrun; discriminate].
  destruct (Hsaved message record eq_refl) as (_ & Hser & Hin & _).
  exists message, record, s'. split; [exact Hrun|]. split; [exact Hin|exact Hser].
Defined.

End Samples.
